(** * FluffyViz sample-data scripts: turn flatteners and subset sampler

    A shallow embedding of the three scripts under [sample-data/]:
    - [transform_wildchat_dataset.py]   (message-list flattener, "A"),
    - [transform_huggingface_dataset.py] (wide-column flattener, "B"),
    - [create_wildchat_subset.py]        (stratified subset sampler).

    Conventions of the embedding.
    - Text is a [string]; its characters stand for code points below 256.
    - Python integers are [Z]; list positions and counts are [nat].
    - A [datetime] is the number of seconds since 2024-01-01T00:00:00; the
      scripts only ever add whole seconds to one, and [strftime] renders it.
    - A Python float is the exact rational value ([Qc]) of the binary64
      number it holds; every float operation takes the exact result of its
      operands to the nearest binary64 number, ties to even, as the
      hardware does. Results stay far below the overflow threshold, since
      token counts are lengths of strings.
    - Of what a script prints, only the lines the properties speak of are
      recorded as events (the warnings of the sampler and the remediation
      text of flattener B); progress and summary lines are not.
    - A cell of a source record or of a table row is text or a missing key.
      Cells holding no value (a null of the dataset, the filler of a short
      row of the table), rows longer than the header, a table file without
      a header line, fields beyond the size limit of the csv reader and
      instants beyond the range of [datetime] are outside the model.
    - The process-wide random generator is threaded explicitly as the
      sequence of raw draws it still has to deliver. *)

From Stdlib Require Import ZArith QArith Qcanon Qround Ascii String Sorted Permutation Lia.
From stdpp Require Import base option list gmap strings pretty sorting.

Local Open Scope Z_scope.

(** ** Text primitives of the host language *)

Module Text.

(** [str.isspace] on one character (code points below 256). *)
Definition isspace (c : ascii) : bool :=
  let n := nat_of_ascii c in
  ((9 <=? n) && (n <=? 13) || (28 <=? n) && (n <=? 32)
   || (n =? 133) || (n =? 160))%nat.

(** Truth value of a string: empty is false. *)
Definition truthy (s : string) : bool :=
  match s with EmptyString => false | String _ _ => true end.

Fixpoint lstrip (s : string) : string :=
  match s with
  | EmptyString => EmptyString
  | String c s' => if isspace c then lstrip s' else s
  end.

Fixpoint rstrip (s : string) : string :=
  match s with
  | EmptyString => EmptyString
  | String c s' =>
      match rstrip s' with
      | EmptyString => if isspace c then EmptyString else String c EmptyString
      | r => String c r
      end
  end.

(** [str.strip()] *)
Definition strip (s : string) : string := lstrip (rstrip s).

(** [str.lower()] on one character: A-Z and the upper-case letters of the
    Latin-1 block move up by 32. *)
Definition lower_char (c : ascii) : ascii :=
  let n := nat_of_ascii c in
  if ((65 <=? n) && (n <=? 90)
      || (192 <=? n) && (n <=? 222) && negb (n =? 215))%nat
  then ascii_of_nat (n + 32) else c.

Fixpoint lower (s : string) : string :=
  match s with
  | EmptyString => EmptyString
  | String c s' => String (lower_char c) (lower s')
  end.

Fixpoint starts_with (p s : string) : bool :=
  match p, s with
  | EmptyString, _ => true
  | String a p', String b s' => if decide (a = b) then starts_with p' s' else false
  | String _ _, EmptyString => false
  end.

(** [needle in hay] *)
Fixpoint contains (needle hay : string) : bool :=
  starts_with needle hay ||
  match hay with
  | EmptyString => false
  | String _ hay' => contains needle hay'
  end.

(** [len(s)] *)
Definition len (s : string) : Z := Z.of_nat (String.length s).

Definition CR : ascii := "013"%char.
Definition LF : ascii := "010"%char.

(** What a file opened for reading in text mode with the default [newline]
    hands on: every CR LF and every other CR has become LF. *)
Fixpoint universal_newlines (s : string) : string :=
  match s with
  | EmptyString => EmptyString
  | String c rest =>
      if decide (c = CR) then
        String LF
          match rest with
          | EmptyString => EmptyString
          | String c' rest' =>
              if decide (c' = LF) then universal_newlines rest'
              else universal_newlines rest
          end
      else String c (universal_newlines rest)
  end.

End Text.

(** ** The process-wide random generator *)

Module Random.

(** The generator is the stream of raw draws still to come. *)
Definition rng : Type := nat → Z.

Definition next (g : rng) : rng := λ n, g (S n).

(** [random.randint(lo, hi)]: a value in the closed range. *)
Definition randint (lo hi : Z) (g : rng) : Z * rng :=
  (lo + g O mod (hi - lo + 1), next g).

(** [random.choice(seq)] for a non-empty [seq]. *)
Definition choice {A} (d : A) (l : list A) (g : rng) : A * rng :=
  (nth (Z.to_nat (g O mod Z.of_nat (length l))) l d, next g).

End Random.

(** ** The turn-level row both flatteners emit *)

Record Metadata : Type := mkMetadata {
  prompt_tokens : Z;
  completion_tokens : Z;
  total_tokens : Z;
  latency_ms : Z;
  cost_usd : Qc
}.

(** [turn_id] is [None] while the dictionary has no such key yet. *)
Record Turn : Type := mkTurn {
  turn_id : option Z;
  session_id : string;
  user_id : string;
  timestamp : Z;
  user_message : string;
  assistant_message : string;
  model : string;
  metadata : Metadata
}.

(** The integer nearest to a rational, ties to the even one. *)
Definition round_half_even (x : Q) : Z :=
  let f := Qfloor x in
  match Qcompare (x - inject_Z f) (1 # 2) with
  | Lt => f
  | Gt => f + 1
  | Eq => if Z.even f then f else f + 1
  end.

(** Binary64 arithmetic on exact values. [pow2 e] is 2^e. *)
Definition pow2 (e : Z) : Q :=
  if 0 <=? e then inject_Z (2 ^ e) else Qmake 1 (Z.to_pos (2 ^ (- e))).

(** The integer part of the binary logarithm of a positive rational. *)
Definition floor_log2 (q : Q) : Z :=
  let n := Qnum q in
  let d := Zpos (Qden q) in
  let k := Z.log2 n - Z.log2 d in
  if (if 0 <=? k then d * 2 ^ k <=? n else d <=? n * 2 ^ (- k)) then k else k - 1.

(** The nearest number with a 53-bit significand (exponent no lower than
    that of the subnormal numbers), ties to even, of a positive rational. *)
Definition nearest_pos (q : Q) : Q :=
  let e := Z.max (floor_log2 q - 52) (-1074) in
  Qmult (inject_Z (round_half_even (Qdiv q (pow2 e)))) (pow2 e).

Definition binary64 (q : Q) : Q :=
  match Qnum q with
  | Z0 => 0%Q
  | Zpos _ => nearest_pos q
  | Zneg _ => Qopp (nearest_pos (Qopp q))
  end.

(** The float a real result is stored as. *)
Definition fl (q : Q) : Qc := Q2Qc (binary64 q).

(** [round(x, 5)]: the decimal with five places nearest to the exact value
    of [x], ties to even, and then the float nearest to that decimal. *)
Definition round5 (x : Qc) : Qc :=
  fl (Qmake (round_half_even (Qmult x (inject_Z 100000))) 100000).

(** A price pair, USD per 1000 tokens, as the decimal literals of the
    source; the float a literal denotes is [fl] of it. *)
Record Price : Type := mkPrice { input : Qc; output : Qc }.

Definition dec (n : Z) (d : positive) : Qc := Q2Qc (Qmake n d).

Definition default_price : Price := mkPrice (dec 1 1000) (dec 2 1000).

(** [prompt_tokens / 1000 * input + completion_tokens / 1000 * output]:
    two true divisions of integers, two products and a sum of floats. *)
Definition apply_price (costs : Price) (p c : Z) : Qc :=
  let pk := fl (Qmake p 1000) in
  let ck := fl (Qmake c 1000) in
  let a := fl (Qmult pk (fl (input costs))) in
  let b := fl (Qmult ck (fl (output costs))) in
  fl (Qplus a b).

(** [estimate_tokens] is the same function in both flatteners. *)
Definition estimate_tokens (text : string) : Z :=
  if Text.truthy text then Text.len text / 4 else 0.

(** [generate_synthetic_metadata], parameterised by the flattener's own
    [calculate_cost]. *)
Definition generate_synthetic_metadata
    (calculate_cost : string → Z → Z → Qc)
    (user_msg assistant_msg model_name : string) (g : Random.rng)
  : Metadata * Random.rng :=
  let p := estimate_tokens user_msg in
  let c := estimate_tokens assistant_msg in
  let t := p + c in
  let '(base, g1) := Random.randint 1000 2000 g in
  let '(per_token, g2) := Random.randint 80 120 g1 in
  let latency := base + c * per_token in
  let cost := calculate_cost model_name p c in
  (mkMetadata p c t latency (round5 cost), g2).

(** ** What a script run does: printed lines, hub access, the file written,
    and how the process ends *)

Inductive exn : Type :=
  | KeyError (key : string)
  | ValueError
  | ZeroDivisionError
  | SystemExit (code : Z).

Inductive event (R : Type) : Type :=
  | PrintLine (line : string)
  | LoadDataset (name : string) (token : option string)
  | WriteCsv (rows : list R).
Arguments PrintLine {R} line.
Arguments LoadDataset {R} name token.
Arguments WriteCsv {R} rows.

(** A run is the events so far together with an exception or a value. *)
Definition Script (R A : Type) : Type := list (event R) * (exn + A).

Definition ret {R A} (a : A) : Script R A := ([], inr a).
Definition raise {R A} (e : exn) : Script R A := ([], inl e).
Definition tell {R} (ev : event R) : Script R unit := ([ev], inr tt).
Definition bind {R A B} (m : Script R A) (f : A → Script R B) : Script R B :=
  match m with
  | (log, inl e) => (log, inl e)
  | (log, inr a) => let '(log', r) := f a in (log ++ log', r)
  end.

Notation "'let*' x ':=' m 'in' k" := (bind m (λ x, k))
  (at level 10, x pattern, m at level 100, k at level 200).
Notation "m ';;;' k" := (bind m (λ _, k))
  (at level 100, k at level 200, right associativity).

Definition events {R A} (s : Script R A) : list (event R) := fst s.
Definition outcome {R A} (s : Script R A) : exn + A := snd s.

Definition is_write {R} (ev : event R) : option (list R) :=
  match ev with WriteCsv rows => Some rows | _ => None end.

(** The rows of the last file written, if any was. *)
Definition written {R A} (s : Script R A) : option (list R) :=
  last (omap is_write (events s)).



(** ** Flattener A: role-tagged message lists (transform_wildchat_dataset.py) *)

Module Wildchat.

Definition MODEL_COSTS (key : string) : option Price :=
  if decide (key = "gpt-4") then Some (mkPrice (dec 3 100) (dec 6 100))
  else if decide (key = "gpt-3.5-turbo") then Some (mkPrice (dec 15 10000) (dec 2 1000))
  else if decide (key = "gpt-4-turbo") then Some (mkPrice (dec 1 100) (dec 3 100))
  else if decide (key = "claude-2") then Some (mkPrice (dec 8 1000) (dec 24 1000))
  else if decide (key = "claude-3-sonnet") then Some (mkPrice (dec 3 1000) (dec 15 1000))
  else if decide (key = "deepseek-r1") then Some (mkPrice (dec 14 10000) (dec 28 10000))
  else None.

(** The chain of substring tests on the lower-cased model name. *)
Definition price_key (model_name : string) : option string :=
  let model_key := Text.lower model_name in
  if Text.contains "gpt-4" model_key && negb (Text.contains "turbo" model_key)
  then Some "gpt-4"
  else if Text.contains "gpt-4" model_key && Text.contains "turbo" model_key
  then Some "gpt-4-turbo"
  else if Text.contains "gpt-3.5" model_key then Some "gpt-3.5-turbo"
  else if Text.contains "claude-3" model_key then Some "claude-3-sonnet"
  else if Text.contains "claude" model_key then Some "claude-2"
  else if Text.contains "deepseek" model_key then Some "deepseek-r1"
  else None.

Definition costs_of (model_name : string) : Price :=
  default default_price (price_key model_name ≫= MODEL_COSTS).

Definition calculate_cost (model_name : string) (p c : Z) : Qc :=
  apply_price (costs_of model_name) p c.

(** A message is a dictionary; [msg.get(k, "")]. *)
Definition get (msg : gmap string string) (k : string) : string :=
  default "" (msg !! k).

(** The variables the loop of [extract_turns_from_messages] updates. *)
Record loop : Type := mkLoop {
  turns : list Turn;
  pending : option string;      (* [user_message]; [None] is Python's None *)
  turn_num : Z;
  gen : Random.rng
}.

Definition pending_truthy (u : option string) : bool :=
  match u with Some s => Text.truthy s | None => false end.

Definition step (conversation_hash hashed_ip model_name : string)
    (base_timestamp : Z) (st : loop) (msg : gmap string string) : loop :=
  let role := get msg "role" in
  let content := Text.strip (get msg "content") in
  if negb (Text.truthy content) then st
  else if decide (role = "user")
  then mkLoop (turns st) (Some content) (turn_num st) (gen st)
  else if bool_decide (role = "assistant") && pending_truthy (pending st)
  then
    let u := default "" (pending st) in
    let '(md, g') := generate_synthetic_metadata calculate_cost u content
                       model_name (gen st) in
    let turn_timestamp := base_timestamp + turn_num st * 30 in
    mkLoop (turns st ++ [mkTurn None conversation_hash hashed_ip turn_timestamp
                                u content model_name md])
           None (turn_num st + 1) g'
  else st.

Definition run (conversation_hash hashed_ip model_name : string)
    (base_timestamp : Z) (g : Random.rng) (messages : list (gmap string string))
  : loop :=
  foldl (step conversation_hash hashed_ip model_name base_timestamp)
        (mkLoop [] None 1 g) messages.

Definition extract_turns_from_messages
    (messages : list (gmap string string))
    (conversation_hash hashed_ip model_name : string) (base_timestamp : Z)
    (g : Random.rng) : list Turn * Random.rng :=
  let st := run conversation_hash hashed_ip model_name base_timestamp g messages in
  (turns st, gen st).

(** One source record; a field is [None] when the key is missing. *)
Inductive stamp : Type :=
  | Missing                 (* no [timestamp] key, or a false value *)
  | Malformed               (* [fromisoformat] raises *)
  | Instant (t : Z).        (* [fromisoformat] returns this instant *)

Record source_row : Type := mkRow {
  row_conversation_hash : option string;
  row_hashed_ip : option string;
  row_model : option string;
  row_timestamp : stamp;
  row_messages : option (list (gmap string string))
}.

Definition set_turn_id (n : Z) (t : Turn) : Turn :=
  mkTurn (Some n) (session_id t) (user_id t) (timestamp t) (user_message t)
         (assistant_message t) (model t) (metadata t).

(** [for turn in turns: turn["turn_id"] = turn_id_counter; ...] *)
Fixpoint number (counter : Z) (ts : list Turn) : list Turn * Z :=
  match ts with
  | [] => ([], counter)
  | t :: ts' =>
      let '(out, c') := number (counter + 1) ts' in
      (set_turn_id counter t :: out, c')
  end.

Definition base_timestamp_of (idx : nat) (row : source_row) : Z :=
  match row_timestamp row with
  | Instant t => t
  | Missing | Malformed => 0 + 3600 * Z.of_nat idx
  end.

(** The turns one source record contributes, before numbering. *)
Definition row_turns (idx : nat) (row : source_row) (g : Random.rng)
  : list Turn * Random.rng :=
  let conversation_hash :=
    default ("conv_" +:+ pretty idx) (row_conversation_hash row) in
  let hashed_ip := default ("user_" +:+ pretty idx) (row_hashed_ip row) in
  let model_name := default "unknown" (row_model row) in
  let base_timestamp := base_timestamp_of idx row in
  match row_messages row with
  | Some (m :: ms) =>
      extract_turns_from_messages (m :: ms) conversation_hash hashed_ip
                                  model_name base_timestamp g
  | Some [] | None => ([], g)
  end.

(** The loop of [main] over [enumerate(dataset)]. *)
Fixpoint transform (idx : nat) (dataset : list source_row)
    (output_rows : list Turn) (turn_id_counter : Z) (g : Random.rng)
  : list Turn :=
  match dataset with
  | [] => output_rows
  | row :: rest =>
      let '(ts, g') := row_turns idx row g in
      let '(numbered, c') := number turn_id_counter ts in
      transform (S idx) rest (output_rows ++ numbered) c' g'
  end.

(** [main], given what the hub returns for the dataset. *)
Definition main (dataset : list source_row) (g : Random.rng) : Script Turn unit :=
  tell (LoadDataset "allenai/wildchat-r1-p2-format-filtered" None) ;;;
  let output_rows := transform 0 dataset [] 1 g in
  tell (WriteCsv output_rows) ;;;
  (* the closing summary divides by [len(dataset)] *)
  if decide (length dataset = 0%nat) then raise ZeroDivisionError else ret ().

End Wildchat.

(** ** Flattener B: wide P/R columns (transform_huggingface_dataset.py) *)

Module Huggingface.

Definition MODELS : list string :=
  ["gpt-4"; "gpt-3.5-turbo"; "claude-2"; "claude-instant"].

Definition MODEL_COSTS (key : string) : option Price :=
  if decide (key = "gpt-4") then Some (mkPrice (dec 3 100) (dec 6 100))
  else if decide (key = "gpt-3.5-turbo") then Some (mkPrice (dec 15 10000) (dec 2 1000))
  else if decide (key = "claude-2") then Some (mkPrice (dec 8 1000) (dec 24 1000))
  else if decide (key = "claude-instant") then Some (mkPrice (dec 16 10000) (dec 55 10000))
  else None.

(** [MODEL_COSTS.get(model, default)]: the key is the model label itself. *)
Definition costs_of (model_name : string) : Price :=
  default default_price (MODEL_COSTS model_name).

Definition calculate_cost (model_name : string) (p c : Z) : Qc :=
  apply_price (costs_of model_name) p c.

(** A source record: column name to cell, [Some None] for a null cell. *)
Definition cell_truthy (row : gmap string (option string)) (col : string) : bool :=
  match row !! col with
  | Some (Some s) => Text.truthy s
  | Some None | None => false
  end.

Definition cell_text (row : gmap string (option string)) (col : string) : string :=
  match row !! col with
  | Some (Some s) => s
  | Some None | None => ""
  end.

(** [f"{n:05d}"] *)
Definition pad5 (n : nat) : string :=
  let s := pretty n in
  String.string_of_list_ascii (replicate (5 - String.length s) "0"%char) +:+ s.

(** The variables the pair loop updates. *)
Record loop : Type := mkLoop {
  turns : list Turn;
  turn_id_counter : Z;
  gen : Random.rng
}.

Definition pair_step (row : gmap string (option string))
    (sid uid model_name : string) (session_timestamp : Z)
    (st : loop) (turn_num : Z) : loop :=
  let p_col := "P" +:+ pretty turn_num in
  let r_col := "R" +:+ pretty turn_num in
  if cell_truthy row p_col && cell_truthy row r_col then
    let user_msg := Text.strip (cell_text row p_col) in
    let assistant_msg := Text.strip (cell_text row r_col) in
    if Text.truthy user_msg && Text.truthy assistant_msg then
      let '(md, g') := generate_synthetic_metadata calculate_cost user_msg
                         assistant_msg model_name (gen st) in
      let turn_timestamp := session_timestamp + (turn_num - 1) * 60 in
      mkLoop (turns st ++ [mkTurn (Some (turn_id_counter st)) sid uid
                                  turn_timestamp user_msg assistant_msg
                                  model_name md])
             (turn_id_counter st + 1) g'
    else st
  else st.

(** [datetime(2024, 1, 15, 10, 0, 0)] *)
Definition base_timestamp : Z := 14 * 86400 + 10 * 3600.

(** The turns of the record at position [idx]: [range(1, 5)]. *)
Definition row_turns (idx : nat) (row : gmap string (option string))
    (counter : Z) (g : Random.rng) : loop :=
  let sid := "sess_" +:+ pad5 (idx + 1) in
  let '(n, g1) := Random.randint 100 999 g in
  let uid := "user_" +:+ pretty n in
  let '(model_name, g2) := Random.choice "" MODELS g1 in
  let session_timestamp := base_timestamp + Z.of_nat idx * 5 * 60 in
  foldl (pair_step row sid uid model_name session_timestamp)
        (mkLoop [] counter g2) [1; 2; 3; 4].

Fixpoint transform (idx : nat) (dataset : list (gmap string (option string)))
    (output_rows : list Turn) (counter : Z) (g : Random.rng) : list Turn :=
  match dataset with
  | [] => output_rows
  | row :: rest =>
      let st := row_turns idx row counter g in
      transform (S idx) rest (output_rows ++ turns st) (turn_id_counter st) (gen st)
  end.

(** The token [main] ends up with: the first argument wins over HF_TOKEN. *)
Definition token_of (environ : gmap string string) (argv : list string)
  : option string :=
  let token := environ !! "HF_TOKEN" in
  if decide (1 < length argv)%nat then argv !! 1%nat else token.

Definition token_truthy (token : option string) : bool :=
  match token with Some s => Text.truthy s | None => false end.

(** The nine [print] calls before [sys.exit(1)]; three of the texts begin
    with a line break. *)
Definition remediation : list string :=
  [ "ERROR: HuggingFace token required!";
    String Text.LF "This dataset is gated. You need to:";
    "1. Get a token from: https://huggingface.co/settings/tokens";
    "2. Accept terms at: https://huggingface.co/datasets/SoftAge-AI/multi-turn_dataset";
    String Text.LF "Then run:";
    "  export HF_TOKEN=your_token_here";
    "  python transform_huggingface_dataset.py";
    String Text.LF "Or:";
    "  python transform_huggingface_dataset.py hf_your_token_here" ].

Fixpoint print_all {R} (lines : list string) : Script R unit :=
  match lines with
  | [] => ret ()
  | l :: ls => tell (PrintLine l) ;;; print_all ls
  end.

(** [main], given the environment, the argument vector and what the hub
    returns for the dataset. *)
Definition main (environ : gmap string string) (argv : list string)
    (dataset : list (gmap string (option string))) (g : Random.rng)
  : Script Turn unit :=
  let token := token_of environ argv in
  (if token_truthy token then ret ()
   else (print_all remediation ;;; raise (SystemExit 1))) ;;;
  tell (LoadDataset "SoftAge-AI/multi-turn_dataset" token) ;;;
  let output_rows := transform 0 dataset [] 1 g in
  tell (WriteCsv output_rows) ;;;
  if decide (length dataset = 0%nat) then raise ZeroDivisionError else ret ().

End Huggingface.

(** ** The stratified subset sampler (create_wildchat_subset.py) *)

Module Subset.

(** What the script takes from the interpreter it runs on. [int] is the
    built-in integer parser ([None] when it raises), [seed] the generator
    state [random.seed] installs, and [set_iter] the order in which a set
    built from a list hands out its elements, which varies with the hash
    seed of the process. *)
Record runtime : Type := mkRuntime {
  int : string → option Z;
  seed : Z → Random.rng;
  set_iter : list string → list string
}.

(** [set_iter] enumerates a set: every element once, and nothing else. *)
Definition set_iteration (f : list string → list string) : Prop :=
  ∀ l, NoDup (f l) ∧ ∀ x, x ∈ f l ↔ x ∈ l.

(** [conversations[session_id].append(row)] on an insertion-ordered
    dictionary of lists. *)
Fixpoint append_row (sid : string) (row : gmap string string)
    (conversations : list (string * list (gmap string string)))
  : list (string * list (gmap string string)) :=
  match conversations with
  | [] => [(sid, [row])]
  | (k, rows) :: rest =>
      if decide (k = sid) then (k, rows ++ [row]) :: rest
      else (k, rows) :: append_row sid row rest
  end.

(** Reading the table: [row['session_id']] raises on a missing column. *)
Fixpoint read_rows (table : list (gmap string string))
    (conversations : list (string * list (gmap string string)))
  : Script (gmap string string) (list (string * list (gmap string string))) :=
  match table with
  | [] => ret conversations
  | row :: rest =>
      match row !! "session_id" with
      | None => raise (KeyError "session_id")
      | Some sid => read_rows rest (append_row sid row conversations)
      end
  end.

(** [conversations[session_id]] *)
Fixpoint rows_of (conversations : list (string * list (gmap string string)))
    (sid : string) : list (gmap string string) :=
  match conversations with
  | [] => []
  | (k, rows) :: rest => if decide (k = sid) then rows else rows_of rest sid
  end.

Definition single_turn (conversations : list (string * list (gmap string string)))
  : list string :=
  (filter (λ kv, length kv.2 = 1%nat) conversations).*1.

Definition multi_turn (conversations : list (string * list (gmap string string)))
  : list string :=
  (filter (λ kv, length kv.2 ≠ 1%nat) conversations).*1.

(** Clamping a target to its pool, with the warning line (its text without
    the leading blank line and sign). *)
Definition clamp {R} (what : string) (target available : nat) : Script R nat :=
  if decide (available < target)%nat then
    tell (PrintLine ("Warning: Only " +:+ pretty available +:+ " " +:+ what
                 +:+ " conversations available (need " +:+ pretty target +:+ ")")) ;;;
    ret available
  else ret target.

(** [random.sample(population, k)], by the pool method of the library:
    draw a position below the current size, take the element there, and
    move the last element of the pool into the hole. (On a population far
    larger than the sample the library draws positions and redraws the ones
    already taken instead; both ways the result is [k] elements at [k]
    different positions, fixed by the generator state.) *)
Fixpoint sample_pool {A} (pool : list A) (k : nat) (g : Random.rng)
  : list A * Random.rng :=
  match k with
  | O => ([], g)
  | S k' =>
      let n := length pool in
      let j := Z.to_nat (g O mod Z.of_nat n) in
      match pool !! j, last pool with
      | Some x, Some z =>
          let pool' := take (n - 1) (<[j := z]> pool) in
          let '(rest, g') := sample_pool pool' k' (Random.next g) in
          (x :: rest, g')
      | _, _ => ([], g)
      end
  end.

Definition sample {R A} (population : list A) (k : nat) (g : Random.rng)
  : Script R (list A * Random.rng) :=
  if decide (k ≤ length population)%nat then ret (sample_pool population k g)
  else raise ValueError.

(** [key=lambda x: int(x['turn_id'])], computed for every row up front. *)
Definition sort_key (rt : runtime) (row : gmap string string) : exn + Z :=
  match row !! "turn_id" with
  | None => inl (KeyError "turn_id")
  | Some s => match int rt s with None => inl ValueError | Some k => inr k end
  end.

Fixpoint keyed {R} (rt : runtime) (rows : list (gmap string string))
  : Script R (list (Z * gmap string string)) :=
  match rows with
  | [] => ret []
  | row :: rest =>
      match sort_key rt row with
      | inl e => raise e
      | inr k => let* ks := keyed rt rest in ret ((k, row) :: ks)
      end
  end.

(** [list.sort] is stable: an element goes in front of the first one whose
    key is not smaller. *)
Fixpoint insert_sorted {A} (x : Z * A) (l : list (Z * A)) : list (Z * A) :=
  match l with
  | [] => [x]
  | y :: l' => if decide (x.1 ≤ y.1) then x :: y :: l' else y :: insert_sorted x l'
  end.

Definition stable_sort {A} (l : list (Z * A)) : list (Z * A) :=
  foldr insert_sorted [] l.

(** [for idx, row in enumerate(output_rows, start=1): row['turn_id'] = str(idx)] *)
Definition renumber (rows : list (gmap string string)) : list (gmap string string) :=
  imap (λ i row, <["turn_id" := pretty (S i)]> row) rows.

Definition main (rt : runtime) (table : list (gmap string string))
  : Script (gmap string string) unit :=
  let* conversations := read_rows table [] in
  let singles := single_turn conversations in
  let multis := multi_turn conversations in
  let* target_single := clamp "single-turn" 300 (length singles) in
  let* target_multi := clamp "multi-turn" 200 (length multis) in
  let g := seed rt 42 in
  let* (selected_single, g1) := sample singles target_single g in
  let* (selected_multi, g2) := sample multis target_multi g1 in
  let selected_sessions := set_iter rt (selected_single ++ selected_multi) in
  let output_rows := concat (rows_of conversations <$> selected_sessions) in
  let* ks := keyed rt output_rows in
  let output_rows := renumber (stable_sort ks).*2 in
  tell (WriteCsv output_rows) ;;;
  (* the closing summary divides by [len(selected_sessions)] *)
  if decide (length selected_sessions = 0%nat) then raise ZeroDivisionError
  else ret ().

(** The table [main] works on is the rows as [csv.DictReader] yields them.
    The input is opened in text mode without [newline=''], so a field the
    file stores with a CR LF or a CR in it reaches the reader with LF
    instead. [stored] is the table as the file holds it: what a reader on a
    file opened with [newline=''] would yield. Column names hold no line
    break. *)
Definition read_text (stored : list (gmap string string)) : list (gmap string string) :=
  (λ row : gmap string string, Text.universal_newlines <$> row) <$> stored.

(** A run of the script on a stored file. *)
Definition run (rt : runtime) (stored : list (gmap string string))
  : Script (gmap string string) unit :=
  main rt (read_text stored).

(** The built-in [int] on decimal numerals of ASCII text: an optional sign,
    then digits, single underscores allowed between digits, white space
    around the whole ignored. *)
Fixpoint digits (acc : Z) (s : string) : option Z :=
  match s with
  | EmptyString => Some acc
  | String c s' =>
      match Ascii.is_nat c with
      | Some d => digits (10 * acc + Z.of_nat d) s'
      | None =>
          if decide (c = "_"%char) then
            match s' with
            | EmptyString => None
            | String c' s'' =>
                match Ascii.is_nat c' with
                | Some d => digits (10 * acc + Z.of_nat d) s''
                | None => None
                end
            end
          else None
      end
  end.

Definition numeral (s : string) : option Z :=
  match s with
  | EmptyString => None
  | String c s' =>
      match Ascii.is_nat c with
      | Some d => digits (Z.of_nat d) s'
      | None => None
      end
  end.

Definition decimal (s : string) : option Z :=
  match Text.strip s with
  | String "-" r => Z.opp <$> numeral r
  | String "+" r => numeral r
  | t => numeral t
  end.

(** Two ways a set of strings may be enumerated. *)
Definition first_seen (l : list string) : list string := remove_dups l.
Definition last_first (l : list string) : list string := reverse (remove_dups l).

End Subset.

(** ** Predicates used to state the properties *)

(** A turn as a flattener with pricing [costs_of] builds it: both texts are
    already trimmed and non-empty, and the metadata is what
    [generate_synthetic_metadata] returns for them. *)
Definition emitted_by (costs_of : string → Price) (t : Turn) : Prop :=
  Text.strip (user_message t) = user_message t ∧
  Text.truthy (user_message t) = true ∧
  Text.strip (assistant_message t) = assistant_message t ∧
  Text.truthy (assistant_message t) = true ∧
  ∃ g, metadata t =
       (generate_synthetic_metadata (λ m p c, apply_price (costs_of m) p c)
          (user_message t) (assistant_message t) (model t) g).1.

(** Timestamps that go up by exactly [d] from each element to the next. *)
Fixpoint spaced (d : Z) (l : list Z) : Prop :=
  match l with
  | x :: ((y :: _) as l') => y = x + d ∧ spaced d l'
  | _ => True
  end.

Definition message (role content : string) : gmap string string :=
  <["role" := role]> (<["content" := content]> ∅).

(** The token counts of a row add up and are not negative. *)
Definition tokens_ok (t : Turn) : Prop :=
  total_tokens (metadata t) = prompt_tokens (metadata t) + completion_tokens (metadata t)
  ∧ 0 ≤ prompt_tokens (metadata t) ∧ 0 ≤ completion_tokens (metadata t).

(** Neither side of the exchange is empty once trimmed. *)
Definition both_sides (t : Turn) : Prop :=
  Text.strip (user_message t) ≠ "" ∧ Text.strip (assistant_message t) ≠ "".

(** The cost of a row under a given price lookup. *)
Definition priced_by (costs_of : string → Price) (t : Turn) : Prop :=
  cost_usd (metadata t) =
    round5 (apply_price (costs_of (model t)) (prompt_tokens (metadata t))
                        (completion_tokens (metadata t))).

(** The rows of the file a run wrote, none if it wrote no file. *)
Definition rows_written {R A} (s : Script R A) : list R := default [] (written s).

(** The pairing policy of flattener A in the words of its description: walk
    the messages in order, keeping the latest user message not yet answered;
    an assistant message answers it and clears it, a user message replaces
    it, a message that is blank once trimmed is passed over, and so is an
    assistant message with nothing to answer. *)
Fixpoint paired (waiting : option string) (messages : list (gmap string string))
  : list (string * string) :=
  match messages with
  | [] => []
  | m :: rest =>
      let content := Text.strip (Wildchat.get m "content") in
      if decide (content = "") then paired waiting rest
      else if decide (Wildchat.get m "role" = "user") then paired (Some content) rest
      else if decide (Wildchat.get m "role" = "assistant") then
        match waiting with
        | Some u => (u, content) :: paired None rest
        | None => paired None rest
        end
      else paired waiting rest
  end.

Definition exchange (t : Turn) : string * string :=
  (user_message t, assistant_message t).

(** Inputs used as examples. *)
Definition quiet : Random.rng := λ _, 0.
Definition threes : Random.rng := λ _, 3.

Definition duplicated_hash : list Wildchat.source_row :=
  let row := Wildchat.mkRow (Some "h") (Some "ip") (Some "gpt-4") (Wildchat.Instant 0)
               (Some [message "user" "a"; message "assistant" "b"]) in
  [row; row].

Definition one_record : list (gmap string (option string)) :=
  [ <["P1" := Some "hi there how are you"]>
      (<["R1" := Some "hello, I am fine and you?"]> ∅) ].

Definition with_token : gmap string string := <["HF_TOKEN" := "hf_abc"]> ∅.

(** A cell of a wide record that holds no text: missing, null, or blank once
    trimmed. *)
Definition blank_cell (row : gmap string (option string)) (col : string) : Prop :=
  match row !! col with
  | Some (Some s) => Text.strip s = ""
  | Some None | None => True
  end.

Definition hi_hello_bye : gmap string (option string) :=
  <["P1" := Some "hi"]> (<["R1" := Some "hello"]>
    (<["P2" := Some ""]> (<["R2" := Some "bye"]> ∅))).

(** *** Reading the sampler on a table *)

(** The session a row belongs to and the integer its turn_id denotes. *)
Definition session (row : gmap string string) : string :=
  default "" (row !! "session_id").

Definition key (rt : Subset.runtime) (row : gmap string string) : Z :=
  default 0 (row !! "turn_id" ≫= Subset.int rt).

(** A turn-level table: every row has a session_id and an integer turn_id. *)
Definition has_session (row : gmap string string) : Prop :=
  is_Some (row !! "session_id").

Definition has_key (rt : Subset.runtime) (row : gmap string string) : Prop :=
  is_Some (row !! "turn_id" ≫= Subset.int rt).

Definition well_formed (rt : Subset.runtime) (table : list (gmap string string)) : Prop :=
  Forall (λ row, has_session row ∧ has_key rt row) table.

(** No two rows of the table denote the same turn_id. *)
Definition distinct_turn_ids (rt : Subset.runtime) (table : list (gmap string string))
  : Prop :=
  ∀ i j r1 r2 k, table !! i = Some r1 → table !! j = Some r2 →
                 Subset.sort_key rt r1 = inr k → Subset.sort_key rt r2 = inr k → i = j.

(** What [read_rows] returns when no row lacks its session_id. *)
Definition group (table : list (gmap string string))
    (conversations : list (string * list (gmap string string)))
  : list (string * list (gmap string string)) :=
  foldl (λ acc row, Subset.append_row (session row) row acc) conversations table.

Definition pool_single (table : list (gmap string string)) : list string :=
  Subset.single_turn (group table []).

Definition pool_multi (table : list (gmap string string)) : list string :=
  Subset.multi_turn (group table []).

(** The two samples, in the order [main] concatenates them. *)
Definition chosen (rt : Subset.runtime) (table : list (gmap string string))
  : list string :=
  let s := Subset.sample_pool (pool_single table)
             (300 `min` length (pool_single table)) (Subset.seed rt 42) in
  let m := Subset.sample_pool (pool_multi table)
             (200 `min` length (pool_multi table)) s.2 in
  s.1 ++ m.1.

Definition selection (rt : Subset.runtime) (table : list (gmap string string))
  : list string :=
  Subset.set_iter rt (chosen rt table).

Definition collected (rt : Subset.runtime) (table : list (gmap string string))
  : list (gmap string string) :=
  concat (Subset.rows_of (group table []) <$> selection rt table).

(** The collected rows in the order the sort leaves them. *)
Definition kept (rt : Subset.runtime) (table : list (gmap string string))
  : list (gmap string string) :=
  (Subset.stable_sort ((λ r, (key rt r, r)) <$> collected rt table)).*2.

(** The lines [main] prints on the way. *)
Definition warnings (table : list (gmap string string))
  : list (event (gmap string string)) :=
  events (Subset.clamp (R := gmap string string) "single-turn" 300
            (length (pool_single table)))
  ++ events (Subset.clamp (R := gmap string string) "multi-turn" 200
               (length (pool_multi table))).

(** Example tables. *)
Definition row_of (tid sid text : string) : gmap string string :=
  <["turn_id" := tid]> (<["session_id" := sid]> (<["user_message" := text]> ∅)).

Definition tied_ids : list (gmap string string) :=
  [row_of "1" "a" "first"; row_of "1" "b" "second"].

Definition small_table : list (gmap string string) :=
  [row_of "5" "c" "c1"; row_of "2" "a" "a1"; row_of "9" "c" "c2";
   row_of "7" "b" "b1"; row_of "14" "c" "c3"].


Definition rt_first : Subset.runtime :=
  Subset.mkRuntime Subset.decimal (λ _, quiet) Subset.first_seen.

Definition rt_last : Subset.runtime :=
  Subset.mkRuntime Subset.decimal (λ _, quiet) Subset.last_first.

(** The dictionary of conversations after the rows [seen] have been read. *)
Definition grouped (conversations : list (string * list (gmap string string)))
    (seen : list (gmap string string)) : Prop :=
  NoDup conversations.*1 ∧
  Forall (λ kv, kv.2 ≠ []) conversations ∧
  ∀ s, Subset.rows_of conversations s = filter (λ r, session r = s) seen.

(** *** Counting messages *)

(** A message of the given role whose content is not blank. *)
Definition speaks (role : string) (m : gmap string string) : Prop :=
  Wildchat.get m "role" = role ∧ Text.strip (Wildchat.get m "content") ≠ "".

(** Row identifiers 1, 2, ..., n as the flatteners store them. *)
Definition ids_upto (n : nat) : list (option Z) :=
  (λ i : nat, Some (Z.of_nat i)) <$> seq 1 n.

(** The turns of one wide record agree on session, user and model. *)
Definition of_record (sid uid mdl : string) (t : Turn) : Prop :=
  session_id t = sid ∧ user_id t = uid ∧ model t = mdl.

(** The simulated latency lies between the smallest and largest draw. *)
Definition latency_ok (t : Turn) : Prop :=
  1000 ≤ latency_ms (metadata t) ≤ 2000 + 120 * completion_tokens (metadata t).

(** The session id the record at position [idx] gives its turns, and the
    session ids of the records of a dataset read from position [idx]. *)
Definition record_session (idx : nat) (row : Wildchat.source_row) : string :=
  default ("conv_" +:+ pretty idx) (Wildchat.row_conversation_hash row).

Fixpoint record_sessions (idx : nat) (ds : list Wildchat.source_row) : list string :=
  match ds with
  | [] => []
  | row :: rest => record_session idx row :: record_sessions (S idx) rest
  end.

(** The two texts of pair [k] of a wide record, trimmed; the pair is taken
    when both cells hold text and neither text is empty once trimmed. *)
Definition pair_text (row : gmap string (option string)) (k : Z) : string * string :=
  (Text.strip (Huggingface.cell_text row ("P" +:+ pretty k)),
   Text.strip (Huggingface.cell_text row ("R" +:+ pretty k))).

Definition taken (row : gmap string (option string)) (k : Z) : bool :=
  Huggingface.cell_truthy row ("P" +:+ pretty k)
  && Huggingface.cell_truthy row ("R" +:+ pretty k)
  && Text.truthy (pair_text row k).1 && Text.truthy (pair_text row k).2.

(** A turn's timestamp together with its two messages. *)
Definition stamped (t : Turn) : Z * (string * string) := (timestamp t, exchange t).

(** Two records with different hashes, two exchanges each. *)
Definition two_sessions : list Wildchat.source_row :=
  let msgs := [message "user" "a"; message "assistant" "b";
               message "user" "c"; message "assistant" "d"] in
  [ Wildchat.mkRow (Some "h1") (Some "ip") (Some "gpt-4") (Wildchat.Instant 0) (Some msgs);
    Wildchat.mkRow (Some "h2") (Some "ip") (Some "gpt-4") (Wildchat.Instant 0) (Some msgs) ].


(** A string without the character [c]. *)
Fixpoint free_of (c : ascii) (s : string) : Prop :=
  match s with
  | EmptyString => True
  | String c' rest => c' ≠ c ∧ free_of c rest
  end.

(** A stored table none of whose fields holds a carriage return. *)
Definition no_carriage_return (stored : list (gmap string string)) : Prop :=
  Forall (map_Forall (λ _ v, free_of Text.CR v)) stored.

(** A stored table of one row whose message spans two lines, the line break
    stored as CR LF. *)
Definition crlf_table : list (gmap string string) :=
  [row_of "1" "a" (String "x" (String Text.CR (String Text.LF "y")))].

(** * Properties *)

(** ** Lists *)

Lemma filter_all {A} (P : A → Prop) `{∀ x, Decision (P x)} (l : list A) :
  Forall P l → filter P l = l.
Proof.
  induction 1 as [|x l Hx Hl IH]; [done|].
  rewrite filter_cons, decide_True by done. by rewrite IH.
Qed.

Lemma filter_none {A} (P : A → Prop) `{∀ x, Decision (P x)} (l : list A) :
  Forall (λ x, ¬ P x) l → filter P l = [].
Proof.
  induction 1 as [|x l Hx Hl IH]; [done|].
  by rewrite filter_cons, decide_False by done.
Qed.

(** ** Trimming *)

Section strip_facts.
Import Text.

Lemma rstrip_idem s : rstrip (rstrip s) = rstrip s.
Proof.
  induction s as [|c s IH]; simpl; [done|].
  destruct (rstrip s) as [|d r] eqn:E.
  - destruct (isspace c) eqn:Hc; simpl; [done|]. by rewrite Hc.
  - change (rstrip (String c (String d r))) with
      (match rstrip (String d r) with
       | EmptyString => if isspace c then EmptyString else String c EmptyString
       | r' => String c r' end).
    by rewrite IH.
Qed.

Lemma lstrip_idem s : lstrip (lstrip s) = lstrip s.
Proof.
  induction s as [|c s IH]; simpl; [done|].
  destruct (isspace c) eqn:Hc; [done|]. simpl. by rewrite Hc.
Qed.

Lemma lstrip_rstrip s : rstrip (lstrip s) = lstrip (rstrip s).
Proof.
  induction s as [|c s IH]; [done|].
  cbn [lstrip]. destruct (isspace c) eqn:Hc.
  - rewrite IH. cbn [rstrip]. destruct (rstrip s) as [|d r]; simpl.
    + by rewrite Hc.
    + by rewrite Hc.
  - cbn [rstrip]. destruct (rstrip s) as [|d r]; rewrite ?Hc; simpl; by rewrite Hc.
Qed.

Lemma strip_idem s : strip (strip s) = strip s.
Proof.
  unfold strip. by rewrite (lstrip_rstrip (rstrip s)), rstrip_idem, lstrip_idem.
Qed.

Lemma truthy_nonempty s : truthy s = true ↔ s ≠ "".
Proof. destruct s; simpl; split; congruence. Qed.

End strip_facts.

(** ** Metadata *)

Lemma estimate_tokens_nonneg text : 0 ≤ estimate_tokens text.
Proof.
  unfold estimate_tokens, Text.len. destruct (Text.truthy text); [|done].
  apply Z.div_pos; lia.
Qed.

Lemma metadata_tokens calc u a m g :
  let md := (generate_synthetic_metadata calc u a m g).1 in
  prompt_tokens md = estimate_tokens u ∧
  completion_tokens md = estimate_tokens a ∧
  total_tokens md = estimate_tokens u + estimate_tokens a ∧
  cost_usd md = round5 (calc m (estimate_tokens u) (estimate_tokens a)).
Proof. done. Qed.

Lemma emitted_by_tokens costs t :
  emitted_by costs t →
  total_tokens (metadata t) = prompt_tokens (metadata t) + completion_tokens (metadata t) ∧
  0 ≤ prompt_tokens (metadata t) ∧ 0 ≤ completion_tokens (metadata t).
Proof.
  intros (_ & _ & _ & _ & g & ->).
  destruct (metadata_tokens (λ m p c, apply_price (costs m) p c)
              (user_message t) (assistant_message t) (model t) g) as (-> & -> & -> & _).
  auto using estimate_tokens_nonneg.
Qed.

Lemma emitted_by_cost costs t :
  emitted_by costs t →
  cost_usd (metadata t) =
    round5 (apply_price (costs (model t)) (prompt_tokens (metadata t))
                        (completion_tokens (metadata t))).
Proof. by intros (_ & _ & _ & _ & g & ->). Qed.

Lemma emitted_by_nonempty costs t :
  emitted_by costs t →
  Text.strip (user_message t) ≠ "" ∧ Text.strip (assistant_message t) ≠ "".
Proof.
  intros (-> & Hu & -> & Ha & _). by split; apply truthy_nonempty.
Qed.

(** ** Flattener A: the message loop *)

Section wildchat_loop.
Import Wildchat.
Variables (ch ip mdl : string) (base : Z).

Local Abbreviation step := (Wildchat.step ch ip mdl base).
Local Abbreviation run := (Wildchat.run ch ip mdl base).

Lemma run_snoc g msgs m : run g (msgs ++ [m]) = step (run g msgs) m.
Proof. unfold Wildchat.run. by rewrite foldl_app. Qed.

(** What one message does to the loop variables. *)
Lemma step_skip st m :
  Text.truthy (Text.strip (get m "content")) = false → step st m = st.
Proof. intros H. unfold Wildchat.step. by rewrite H. Qed.

Lemma step_user st m :
  Text.truthy (Text.strip (get m "content")) = true → get m "role" = "user" →
  step st m = mkLoop (turns st) (Some (Text.strip (get m "content")))
                     (turn_num st) (gen st).
Proof.
  intros H Hr. unfold Wildchat.step. by rewrite H, Hr.
Qed.

Lemma step_other st m :
  get m "role" ≠ "user" → get m "role" ≠ "assistant" → step st m = st.
Proof.
  intros Hu Ha. unfold Wildchat.step.
  destruct (negb _); [done|].
  rewrite decide_False by done. by rewrite bool_decide_eq_false_2.
Qed.

Lemma step_assistant_unpaired st m :
  get m "role" = "assistant" → pending_truthy (pending st) = false →
  step st m = st.
Proof.
  intros Hr Hp. unfold Wildchat.step.
  destruct (negb _); [done|].
  rewrite Hr, Hp. simpl. rewrite ?decide_False by done. by rewrite ?andb_false_r.
Qed.

Lemma step_assistant_paired st m u :
  Text.truthy (Text.strip (get m "content")) = true →
  get m "role" = "assistant" → pending st = Some u → Text.truthy u = true →
  let c := Text.strip (get m "content") in
  let md := generate_synthetic_metadata calculate_cost u c mdl (gen st) in
  step st m =
    mkLoop (turns st ++ [mkTurn None ch ip (base + turn_num st * 30) u c mdl md.1])
           None (turn_num st + 1) md.2.
Proof.
  intros H Hr Hp Hu. unfold Wildchat.step. rewrite H, Hr, Hp. simpl.
  by rewrite Hu.
Qed.

(** The five cases are all there is. *)
Lemma step_shape st m :
  step st m = st ∨
  step st m = mkLoop (turns st) (Some (Text.strip (get m "content")))
                     (turn_num st) (gen st)
    ∧ Text.truthy (Text.strip (get m "content")) = true ∨
  ∃ u, pending st = Some u ∧ Text.truthy u = true ∧
       Text.truthy (Text.strip (get m "content")) = true ∧
       step st m =
         mkLoop (turns st ++
                   [mkTurn None ch ip (base + turn_num st * 30) u
                      (Text.strip (get m "content")) mdl
                      (generate_synthetic_metadata calculate_cost u
                         (Text.strip (get m "content")) mdl (gen st)).1])
                None (turn_num st + 1)
                (generate_synthetic_metadata calculate_cost u
                   (Text.strip (get m "content")) mdl (gen st)).2.
Proof.
  destruct (Text.truthy (Text.strip (get m "content"))) eqn:Hc;
    [|left; by apply step_skip].
  destruct (decide (get m "role" = "user")) as [Hu|Hu];
    [right; left; split; [by apply step_user|done]|].
  destruct (decide (get m "role" = "assistant")) as [Ha|Ha];
    [|left; by apply step_other].
  destruct (pending st) as [u|] eqn:Hp; [|left; by apply step_assistant_unpaired; rewrite ?Hp].
  destruct (Text.truthy u) eqn:Htu;
    [|left; apply step_assistant_unpaired; [done|by rewrite Hp]].
  right; right. exists u. repeat split; try done.
  by apply step_assistant_paired.
Qed.

(** What holds of the loop variables after every message. *)
Definition loop_inv (st : loop) : Prop :=
  turn_num st = 1 + Z.of_nat (length (turns st)) ∧
  (∀ u, pending st = Some u → Text.strip u = u) ∧
  Forall (emitted_by costs_of) (turns st) ∧
  Forall (λ t, session_id t = ch ∧ turn_id t = None) (turns st) ∧
  ∀ i t, turns st !! i = Some t → timestamp t = base + 30 * (Z.of_nat i + 1).

Lemma step_inv st m : loop_inv st → loop_inv (step st m).
Proof.
  intros (Hn & Hp & He & Hs & Ht).
  destruct (step_shape st m) as [->|[[-> Hc]|(u & Hu & Htu & Hc & ->)]].
  - done.
  - repeat split; simpl; try done.
    intros u [= <-]. apply strip_idem.
  - repeat split; simpl.
    + rewrite length_app. simpl. lia.
    + done.
    + apply Forall_app. split; [done|]. constructor; [|done].
      repeat split; simpl; try done.
      * by apply Hp.
      * apply strip_idem.
      * by exists (gen st).
    + apply Forall_app. split; [done|]. by constructor.
    + intros i t. rewrite lookup_app_Some. intros [Hi|[Hge Hi]]; [by apply Ht|].
      apply list_lookup_singleton_Some in Hi as [Hi <-]. simpl. lia.
Qed.

Lemma run_inv g msgs : loop_inv (run g msgs).
Proof.
  induction msgs as [|m msgs IH] using rev_ind.
  - repeat split; simpl; try done; by constructor.
  - rewrite run_snoc. by apply step_inv.
Qed.

End wildchat_loop.

Lemma foldl_step_of_record ch ip mdl base msgs st :
  Forall (of_record ch ip mdl) (Wildchat.turns st) →
  Forall (of_record ch ip mdl)
         (Wildchat.turns (foldl (Wildchat.step ch ip mdl base) st msgs)).
Proof.
  revert st. induction msgs as [|m msgs IH]; intros st Hst; simpl; [done|].
  apply IH.
  destruct (step_shape ch ip mdl base st m) as [->|[[-> _]|(u & _ & _ & _ & ->)]];
    simpl; [done..|].
  apply Forall_app. split; [done|]. by repeat constructor.
Qed.

(** ** Flattener A: the whole run *)

Lemma emitted_by_set_turn_id costs n t :
  emitted_by costs t → emitted_by costs (Wildchat.set_turn_id n t).
Proof. done. Qed.

Lemma wildchat_number_Forall (P : Turn → Prop) c ts :
  (∀ n t, P t → P (Wildchat.set_turn_id n t)) →
  Forall P ts → Forall P (Wildchat.number c ts).1.
Proof.
  intros HP. revert c. induction ts as [|t ts IH]; intros c Hts; simpl; [done|].
  inversion_clear Hts as [|?? Ht Hts'].
  specialize (IH (c + 1) Hts'). destruct (Wildchat.number (c + 1) ts) as [out c'].
  simpl in *. constructor; auto.
Qed.

Lemma wildchat_transform_Forall (P : Turn → Prop) :
  (∀ n t, P t → P (Wildchat.set_turn_id n t)) →
  (∀ idx row g, Forall P (Wildchat.row_turns idx row g).1) →
  ∀ ds idx acc c g, Forall P acc → Forall P (Wildchat.transform idx ds acc c g).
Proof.
  intros Hset Hrow ds. induction ds as [|row ds IH]; intros idx acc c g Hacc; simpl; [done|].
  pose proof (Hrow idx row g) as Hr.
  destruct (Wildchat.row_turns idx row g) as [ts g'].
  pose proof (wildchat_number_Forall P c ts Hset Hr) as Hn.
  destruct (Wildchat.number c ts) as [numbered c'].
  apply IH. apply Forall_app. by split.
Qed.

Lemma wildchat_row_turns_emitted idx row g :
  Forall (emitted_by Wildchat.costs_of) (Wildchat.row_turns idx row g).1.
Proof.
  unfold Wildchat.row_turns. destruct (Wildchat.row_messages row) as [[|m ms]|]; simpl;
    [done| |done].
  apply run_inv.
Qed.

Lemma wildchat_main_written ds g :
  written (Wildchat.main ds g) = Some (Wildchat.transform 0 ds [] 1 g).
Proof. unfold Wildchat.main. simpl. by destruct (decide _). Qed.

Lemma wildchat_written_emitted ds g :
  Forall (emitted_by Wildchat.costs_of) (default [] (written (Wildchat.main ds g))).
Proof.
  rewrite wildchat_main_written. simpl.
  apply wildchat_transform_Forall; auto using emitted_by_set_turn_id,
    wildchat_row_turns_emitted.
Qed.

(** ** Flattener B: the pair loop and the whole run *)

Section huggingface_loop.
Import Huggingface.
Variables (row : gmap string (option string)) (sid uid mdl : string) (ts : Z).

Local Abbreviation pair_step := (Huggingface.pair_step row sid uid mdl ts).

Lemma pair_step_shape st k :
  pair_step st k = st ∨
  ∃ u a,
    u = Text.strip (cell_text row ("P" +:+ pretty k)) ∧
    a = Text.strip (cell_text row ("R" +:+ pretty k)) ∧
    Text.truthy u = true ∧ Text.truthy a = true ∧
    pair_step st k =
      mkLoop (turns st ++
                [mkTurn (Some (turn_id_counter st)) sid uid (ts + (k - 1) * 60) u a mdl
                   (generate_synthetic_metadata calculate_cost u a mdl (gen st)).1])
             (turn_id_counter st + 1)
             (generate_synthetic_metadata calculate_cost u a mdl (gen st)).2.
Proof.
  unfold Huggingface.pair_step.
  destruct (cell_truthy row _ && cell_truthy row _); [|by left].
  destruct (Text.truthy (Text.strip (cell_text row ("P" +:+ pretty k)))) eqn:Hu;
    [|by left].
  destruct (Text.truthy (Text.strip (cell_text row ("R" +:+ pretty k)))) eqn:Ha;
    [|by left].
  right. eexists _, _. repeat split; try done.
Qed.

(** A pair with a missing, null, empty or blank side emits nothing. *)
Lemma pair_step_skip st k :
  cell_truthy row ("P" +:+ pretty k) = false ∨
  cell_truthy row ("R" +:+ pretty k) = false ∨
  Text.strip (cell_text row ("P" +:+ pretty k)) = "" ∨
  Text.strip (cell_text row ("R" +:+ pretty k)) = "" →
  pair_step st k = st.
Proof.
  intros H. unfold Huggingface.pair_step.
  destruct (cell_truthy row ("P" +:+ pretty k)) eqn:HP; [|done].
  destruct (cell_truthy row ("R" +:+ pretty k)) eqn:HR; [|done].
  destruct (Text.truthy (Text.strip (cell_text row ("P" +:+ pretty k)))) eqn:Hu;
    [|done].
  destruct (Text.truthy (Text.strip (cell_text row ("R" +:+ pretty k)))) eqn:Ha;
    [|done].
  destruct H as [H|[H|[H|H]]]; try congruence; rewrite H in *; done.
Qed.

Lemma pairs_emitted ks st :
  Forall (emitted_by costs_of) (turns st) →
  Forall (emitted_by costs_of) (turns (foldl pair_step st ks)).
Proof.
  revert st. induction ks as [|k ks IH]; intros st Hst; simpl; [done|].
  apply IH. destruct (pair_step_shape st k) as [->|(u & a & Hu & Ha & Htu & Hta & ->)];
    [done|].
  simpl. apply Forall_app. split; [done|]. constructor; [|done].
  repeat split; simpl; try done.
  - rewrite Hu. apply strip_idem.
  - rewrite Ha. apply strip_idem.
  - by exists (gen st).
Qed.

Lemma pairs_timestamps ks st :
  ∃ sub, sublist sub ks ∧
    timestamp <$> turns (foldl pair_step st ks) =
    (timestamp <$> turns st) ++ ((λ k, ts + (k - 1) * 60) <$> sub).
Proof.
  revert st. induction ks as [|k ks IH]; intros st; simpl.
  - exists []. split; [done|]. by rewrite app_nil_r.
  - destruct (IH (pair_step st k)) as (sub & Hsub & Heq).
    destruct (pair_step_shape st k) as [E|(u & a & _ & _ & _ & _ & E)];
      rewrite E in Heq |- *.
    + exists sub. split; [by apply sublist_cons|done].
    + exists (k :: sub). split; [by apply sublist_skip|].
      rewrite Heq. simpl. rewrite fmap_app. simpl. by rewrite <- app_assoc.
Qed.

Lemma pairs_stamped ks st :
  stamped <$> turns (foldl pair_step st ks) =
  (stamped <$> turns st)
  ++ ((λ k, (ts + (k - 1) * 60, pair_text row k))
        <$> filter (λ k, Is_true (taken row k)) ks).
Proof.
  revert st. induction ks as [|k ks IH]; intros st; simpl.
  - by rewrite app_nil_r.
  - rewrite IH, filter_cons. unfold Huggingface.pair_step, taken, pair_text.
    cbn [fst snd].
    destruct (cell_truthy row ("P" +:+ pretty k)); cbn [andb];
      [|by rewrite decide_False by (by intros [])].
    destruct (cell_truthy row ("R" +:+ pretty k)); cbn [andb];
      [|by rewrite decide_False by (by intros [])].
    destruct (Text.truthy (Text.strip (cell_text row ("P" +:+ pretty k)))); cbn [andb];
      [|by rewrite decide_False by (by intros [])].
    destruct (Text.truthy (Text.strip (cell_text row ("R" +:+ pretty k)))); cbn [andb];
      [|by rewrite decide_False by (by intros [])].
    rewrite decide_True by done.
    destruct (generate_synthetic_metadata _ _ _ _ _) as [md g'].
    cbn [turns]. rewrite fmap_app, fmap_cons, <- app_assoc. done.
Qed.

Lemma pairs_counter ks st :
  turn_id_counter (foldl pair_step st ks) =
  turn_id_counter st + Z.of_nat (length (turns (foldl pair_step st ks)))
                     - Z.of_nat (length (turns st)).
Proof.
  revert st. induction ks as [|k ks IH]; intros st; simpl; [lia|].
  rewrite IH. destruct (pair_step_shape st k) as [->|(u & a & _ & _ & _ & _ & ->)];
    [done|].
  simpl. rewrite length_app. simpl. lia.
Qed.

End huggingface_loop.

Lemma huggingface_row_turns_emitted idx row c g :
  Forall (emitted_by Huggingface.costs_of)
         (Huggingface.turns (Huggingface.row_turns idx row c g)).
Proof.
  unfold Huggingface.row_turns, Random.randint, Random.choice. cbv beta iota zeta.
  by apply pairs_emitted.
Qed.

Lemma huggingface_transform_Forall (P : Turn → Prop) :
  (∀ idx row c g, Forall P (Huggingface.turns (Huggingface.row_turns idx row c g))) →
  ∀ ds idx acc c g, Forall P acc → Forall P (Huggingface.transform idx ds acc c g).
Proof.
  intros Hrow ds. induction ds as [|row ds IH]; intros idx acc c g Hacc; [done|].
  cbn [Huggingface.transform]. apply IH. apply Forall_app. by split.
Qed.

Lemma bind_events_raise {R A B} (m : Script R A) (f : A → Script R B) e :
  outcome m = inl e → bind m f = (events m, inl e).
Proof. destruct m as [l [e'|a]]; simpl; by intros [= ->]. Qed.

Lemma huggingface_main_ok environ argv ds g :
  Huggingface.token_truthy (Huggingface.token_of environ argv) = true →
  Huggingface.main environ argv ds g =
    ([LoadDataset "SoftAge-AI/multi-turn_dataset" (Huggingface.token_of environ argv);
      WriteCsv (Huggingface.transform 0 ds [] 1 g)],
     if decide (length ds = 0%nat) then inl ZeroDivisionError else inr ()).
Proof.
  intros H. unfold Huggingface.main. rewrite H. simpl. by destruct (decide _).
Qed.

Lemma huggingface_main_exit environ argv ds g :
  Huggingface.token_truthy (Huggingface.token_of environ argv) = false →
  Huggingface.main environ argv ds g =
    (PrintLine <$> Huggingface.remediation, inl (SystemExit 1)).
Proof. intros H. unfold Huggingface.main. by rewrite H. Qed.

Lemma huggingface_written_emitted environ argv ds g :
  Forall (emitted_by Huggingface.costs_of)
         (default [] (written (Huggingface.main environ argv ds g))).
Proof.
  destruct (Huggingface.token_truthy (Huggingface.token_of environ argv)) eqn:H.
  - rewrite huggingface_main_ok by done. simpl.
    apply huggingface_transform_Forall; auto using huggingface_row_turns_emitted.
  - rewrite huggingface_main_exit by done. done.
Qed.

(** ** Claims about the rows the flatteners write *)

(** C2. In every row either flattener writes, [total_tokens] is the sum of
    [prompt_tokens] and [completion_tokens], and neither of the two is
    negative. *)
Theorem C2_total_tokens dsA gA environ argv dsB gB :
  Forall tokens_ok (rows_written (Wildchat.main dsA gA)) ∧
  Forall tokens_ok (rows_written (Huggingface.main environ argv dsB gB)).
Proof.
  split.
  - eapply Forall_impl; [apply wildchat_written_emitted|].
    intros t Ht. by eapply emitted_by_tokens.
  - eapply Forall_impl; [apply huggingface_written_emitted|].
    intros t Ht. by eapply emitted_by_tokens.
Qed.

Lemma wildchat_rows_written ds g :
  rows_written (Wildchat.main ds g) = Wildchat.transform 0 ds [] 1 g.
Proof. unfold rows_written. by rewrite wildchat_main_written. Qed.

Lemma huggingface_rows_written environ argv ds g :
  Huggingface.token_truthy (Huggingface.token_of environ argv) = true →
  rows_written (Huggingface.main environ argv ds g) = Huggingface.transform 0 ds [] 1 g.
Proof. intros H. unfold rows_written. by rewrite huggingface_main_ok. Qed.

Lemma blank_cell_skip row col :
  blank_cell row col →
  Huggingface.cell_truthy row col = false ∨
  Text.strip (Huggingface.cell_text row col) = "".
Proof.
  unfold blank_cell, Huggingface.cell_truthy, Huggingface.cell_text.
  destruct (row !! col) as [[s|]|]; auto.
Qed.

(** C6. Every row either flattener writes has a user message and an
    assistant message that are non-empty once trimmed; a P/R pair with a
    missing, null or blank side adds no row, and neither does a message that
    is blank once trimmed or an assistant message with no user message
    waiting. *)
Theorem C6_both_sides_nonempty :
  (∀ dsA gA, Forall both_sides (rows_written (Wildchat.main dsA gA))) ∧
  (∀ environ argv dsB gB,
     Forall both_sides (rows_written (Huggingface.main environ argv dsB gB))) ∧
  (∀ row sid uid mdl ts st k,
     blank_cell row ("P" +:+ pretty k) ∨ blank_cell row ("R" +:+ pretty k) →
     Huggingface.pair_step row sid uid mdl ts st k = st) ∧
  (∀ ch ip mdl base st m,
     Text.strip (Wildchat.get m "content") = "" ∨
     (Wildchat.get m "role" = "assistant" ∧ Wildchat.pending st = None) →
     Wildchat.turns (Wildchat.step ch ip mdl base st m) = Wildchat.turns st).
Proof.
  split; [|split; [|split]].
  - intros. eapply Forall_impl; [apply wildchat_written_emitted|].
    intros t Ht. by eapply emitted_by_nonempty.
  - intros. eapply Forall_impl; [apply huggingface_written_emitted|].
    intros t Ht. by eapply emitted_by_nonempty.
  - intros row sid uid mdl ts st k H. apply pair_step_skip.
    destruct H as [H|H]; apply blank_cell_skip in H as [H|H]; auto.
  - intros ch ip mdl base st m [H|[Hr Hp]].
    + rewrite step_skip; [done|]. by rewrite H.
    + rewrite step_assistant_unpaired; [done..|]. by rewrite Hp.
Qed.

Lemma C6_both_sides_nonempty_witness :
  Huggingface.pair_step hi_hello_bye "sess_00001" "user_100" "gpt-4" 0
    (Huggingface.mkLoop [] 1 quiet) 2 = Huggingface.mkLoop [] 1 quiet ∧
  Wildchat.turns (Wildchat.step "h" "ip" "gpt-4" 0 (Wildchat.mkLoop [] None 1 quiet)
                    (message "assistant" "x")) = [].
Proof.
  destruct C6_both_sides_nonempty as (_ & _ & HB & HA). split.
  - apply HB. left. reflexivity.
  - apply (HA "h" "ip" "gpt-4" 0 (Wildchat.mkLoop [] None 1 quiet)
              (message "assistant" "x")).
    right. split; reflexivity.
Defined.

(** The wide record with an empty second prompt yields its first pair only. *)
Example hi_hello_bye_one_turn g :
  exchange <$> Huggingface.turns (Huggingface.row_turns 0 hi_hello_bye 1 g)
  = [("hi", "hello")].
Proof. reflexivity. Qed.

Lemma wildchat_written_priced dsA gA :
  Forall (priced_by Wildchat.costs_of) (rows_written (Wildchat.main dsA gA)).
Proof.
  eapply Forall_impl; [apply wildchat_written_emitted|].
  intros t Ht. by apply emitted_by_cost.
Qed.

Lemma huggingface_written_priced environ argv dsB gB :
  Forall (priced_by Huggingface.costs_of)
         (rows_written (Huggingface.main environ argv dsB gB)).
Proof.
  eapply Forall_impl; [apply huggingface_written_emitted|].
  intros t Ht. by apply emitted_by_cost.
Qed.

(** C7, as stated, fails: flattener B prices a claude-instant row from its
    own table entry, not by the substring lookup of flattener A (which would
    take the claude-2 pair). *)
Lemma C7_lookup_not_shared :
  ∃ t, t ∈ rows_written (Huggingface.main with_token
                           ["transform_huggingface_dataset.py"] one_record threes)
       ∧ model t = "claude-instant"
       ∧ ¬ priced_by Wildchat.costs_of t.
Proof.
  eexists. split; [|split].
  - rewrite huggingface_rows_written by reflexivity.
    apply list_elem_of_here.
  - reflexivity.
  - intros H. apply (f_equal Qcanon.this) in H. vm_compute in H. discriminate H.
Qed.

(** The cost of three small rows, as floats: five completion tokens at the
    claude-3-sonnet price come to 7e-05 (the sum is a float just below
    0.000075), ten at the claude-instant price of flattener B to 5e-05, and
    five prompt tokens at the default price to 1e-05. *)
Example cost_sonnet_five_tokens :
  round5 (apply_price (Wildchat.costs_of "claude-3-sonnet") 0 5) = fl (7 # 100000).
Proof. apply Qc_is_canon. vm_compute. reflexivity. Qed.

Example cost_instant_ten_tokens :
  round5 (apply_price (Huggingface.costs_of "claude-instant") 0 10) = fl (5 # 100000).
Proof. apply Qc_is_canon. vm_compute. reflexivity. Qed.

Example cost_default_five_tokens :
  round5 (apply_price (Wildchat.costs_of "llama-3") 5 0) = fl (1 # 100000).
Proof. apply Qc_is_canon. vm_compute. reflexivity. Qed.

(** C7 (amended). Every row has
    cost_usd = round(prompt_tokens/1000 * input + completion_tokens/1000 * output, 5),
    each operation carried out on floats as the interpreter does;
    flattener A takes the price pair from the substring tests on the
    lower-cased model name, flattener B from the entry of its own table whose
    key is the model label itself; both fall back to (0.001, 0.002) when
    nothing matches; the two lookups are different functions. *)
Theorem C7_cost_per_flattener :
  (∀ dsA gA, Forall (priced_by Wildchat.costs_of) (rows_written (Wildchat.main dsA gA))) ∧
  (∀ environ argv dsB gB,
     Forall (priced_by Huggingface.costs_of)
            (rows_written (Huggingface.main environ argv dsB gB))) ∧
  (∀ m, Wildchat.price_key m = None →
        Wildchat.costs_of m = mkPrice (dec 1 1000) (dec 2 1000)) ∧
  (∀ m, Huggingface.MODEL_COSTS m = None →
        Huggingface.costs_of m = mkPrice (dec 1 1000) (dec 2 1000)) ∧
  Wildchat.costs_of "claude-instant" = mkPrice (dec 8 1000) (dec 24 1000) ∧
  Huggingface.costs_of "claude-instant" = mkPrice (dec 16 10000) (dec 55 10000).
Proof.
  split; [exact wildchat_written_priced|].
  split; [exact huggingface_written_priced|].
  split; [|split; [|split]].
  - intros m H. unfold Wildchat.costs_of. by rewrite H.
  - intros m H. unfold Huggingface.costs_of. by rewrite H.
  - reflexivity.
  - reflexivity.
Qed.

Lemma C7_cost_per_flattener_witness :
  Wildchat.costs_of "llama-3" = mkPrice (dec 1 1000) (dec 2 1000) ∧
  Huggingface.costs_of "GPT-4" = mkPrice (dec 1 1000) (dec 2 1000).
Proof.
  destruct C7_cost_per_flattener as (_ & _ & HA & HB & _). split.
  - apply HA. reflexivity.
  - apply HB. reflexivity.
Defined.

(** ** Claims about the pairing policy of flattener A *)

Section wildchat_pairing.
Variables (ch ip mdl : string) (base : Z).

Local Abbreviation step := (Wildchat.step ch ip mdl base).

Lemma foldl_step_paired msgs st :
  (∀ u, Wildchat.pending st = Some u → Text.truthy u = true) →
  exchange <$> Wildchat.turns (foldl step st msgs) =
  (exchange <$> Wildchat.turns st) ++ paired (Wildchat.pending st) msgs.
Proof.
  revert st. induction msgs as [|m msgs IH]; intros st Hst; simpl.
  - by rewrite app_nil_r.
  - destruct (decide (Text.strip (Wildchat.get m "content") = "")) as [Hc|Hc].
    { rewrite step_skip by (by rewrite Hc). by apply IH. }
    apply truthy_nonempty in Hc.
    destruct (decide (Wildchat.get m "role" = "user")) as [Hu|Hu].
    { rewrite step_user by done. rewrite IH; simpl; [done|by intros u [= <-]]. }
    destruct (decide (Wildchat.get m "role" = "assistant")) as [Ha|Ha];
      [|rewrite step_other by done; by apply IH].
    destruct (Wildchat.pending st) as [u|] eqn:Hp.
    + rewrite (step_assistant_paired ch ip mdl base st m u) by auto.
      rewrite IH by done. simpl. rewrite fmap_app. simpl. by rewrite <- app_assoc.
    + rewrite step_assistant_unpaired by (by rewrite ?Hp).
      rewrite IH by (intros ??; congruence). by rewrite Hp.
Qed.

Lemma run_drop g pre m post :
  step (Wildchat.run ch ip mdl base g pre) m = Wildchat.run ch ip mdl base g pre →
  Wildchat.run ch ip mdl base g (pre ++ m :: post) =
  Wildchat.run ch ip mdl base g (pre ++ post).
Proof.
  intros H. unfold Wildchat.run in *. rewrite !foldl_app. simpl. by rewrite H.
Qed.

End wildchat_pairing.

(** C3. The (user, assistant) pairs of the turns [extract_turns_from_messages]
    returns are exactly those of the pairing policy: one per non-blank
    assistant message that finds a user message waiting, paired with the
    latest such message, which is then cleared; an assistant message with
    nothing waiting gives no turn; a user message replaces the waiting one.
    The two sample conversations give one turn each. *)
Theorem C3_pairing_policy ch ip mdl base g :
  (∀ msgs,
     exchange <$> (Wildchat.extract_turns_from_messages msgs ch ip mdl base g).1
     = paired None msgs) ∧
  exchange <$> (Wildchat.extract_turns_from_messages
                  [message "user" "a"; message "user" "b"; message "assistant" "c"]
                  ch ip mdl base g).1 = [("b", "c")] ∧
  exchange <$> (Wildchat.extract_turns_from_messages
                  [message "assistant" "x"; message "user" "a"; message "assistant" "b"]
                  ch ip mdl base g).1 = [("a", "b")].
Proof.
  split; [|split; reflexivity].
  intros msgs. unfold Wildchat.extract_turns_from_messages, Wildchat.run. simpl.
  by rewrite foldl_step_paired.
Qed.

(** C10. A message whose role is neither "user" nor "assistant" (a missing
    role reads as the empty string) changes none of the loop variables: the
    run is the same with the message removed, as it is for a message whose
    content is blank once trimmed. *)
Theorem C10_other_roles_ignored ch ip mdl base g pre m post :
  (Wildchat.get m "role" ≠ "user" ∧ Wildchat.get m "role" ≠ "assistant")
  ∨ m !! "role" = None
  ∨ Text.strip (Wildchat.get m "content") = "" →
  Wildchat.run ch ip mdl base g (pre ++ [m]) = Wildchat.run ch ip mdl base g pre ∧
  Wildchat.run ch ip mdl base g (pre ++ m :: post) =
  Wildchat.run ch ip mdl base g (pre ++ post).
Proof.
  intros H.
  assert (Wildchat.step ch ip mdl base (Wildchat.run ch ip mdl base g pre) m
          = Wildchat.run ch ip mdl base g pre) as Hstep.
  { destruct H as [[Hu Ha]|[Hr|Hc]].
    - by apply step_other.
    - apply step_other; unfold Wildchat.get; by rewrite Hr.
    - apply step_skip. by rewrite Hc. }
  split; [by rewrite run_snoc|by apply run_drop].
Qed.

Lemma C10_other_roles_ignored_witness :
  Wildchat.run "h" "ip" "gpt-4" 0 quiet
    ([message "user" "a"] ++ [<["content" := "note"]> ∅])
  = Wildchat.run "h" "ip" "gpt-4" 0 quiet [message "user" "a"] ∧
  Wildchat.run "h" "ip" "gpt-4" 0 quiet
    ([message "user" "a"] ++ <["content" := "note"]> ∅ :: [message "assistant" "b"])
  = Wildchat.run "h" "ip" "gpt-4" 0 quiet
    ([message "user" "a"] ++ [message "assistant" "b"]).
Proof.
  apply (C10_other_roles_ignored "h" "ip" "gpt-4" 0 quiet [message "user" "a"]
           (<["content" := "note"]> ∅) [message "assistant" "b"]).
  right. left. reflexivity.
Defined.

(** ** Claims about timestamps *)

Lemma spaced_seq (base : Z) a n :
  spaced 30 ((λ k : nat, base + 30 * Z.of_nat k) <$> seq a n).
Proof.
  revert a. induction n as [|n IH]; intros a; [done|].
  destruct n as [|n]; [done|].
  split; [lia|]. apply (IH (S a)).
Qed.

Lemma sorted_seq (base : Z) a n :
  StronglySorted Z.lt ((λ k : nat, base + 30 * Z.of_nat k) <$> seq a n).
Proof.
  revert a. induction n as [|n IH]; intros a; [constructor|].
  simpl. constructor; [apply IH|].
  rewrite Forall_fmap. apply Forall_seq. intros j Hj. simpl. lia.
Qed.

Lemma StronglySorted_sublist {A} (R : relation A) k l :
  sublist k l → StronglySorted R l → StronglySorted R k.
Proof.
  induction 1 as [|x k l Hkl IH|x k l Hkl IH]; intros Hl; [done| |].
  - apply StronglySorted_inv in Hl as [Hl Hx]. constructor; [by apply IH|].
    rewrite Forall_forall in Hx |- *. intros y Hy. apply Hx.
    by eapply elem_of_sublist.
  - apply StronglySorted_inv in Hl as [Hl _]. by apply IH.
Qed.

Lemma wildchat_extract_timestamps msgs ch ip mdl base g :
  let ts := timestamp <$> (Wildchat.extract_turns_from_messages msgs ch ip mdl base g).1 in
  ts = (λ k : nat, base + 30 * Z.of_nat k) <$> seq 1 (length ts).
Proof.
  simpl. destruct (run_inv ch ip mdl base g msgs) as (_ & _ & _ & _ & Ht).
  set (l := Wildchat.turns _) in *. clearbody l.
  apply list_eq. intros i. rewrite !list_lookup_fmap, length_fmap.
  destruct (l !! i) as [t|] eqn:Hi; simpl.
  - rewrite lookup_seq_lt by (by eapply lookup_lt_Some). simpl.
    rewrite (Ht i t Hi). f_equal. lia.
  - rewrite lookup_seq_ge; [done|]. by apply lookup_ge_None.
Qed.

Lemma huggingface_row_timestamps idx row c g :
  ∃ sub, sublist sub [1; 2; 3; 4] ∧
    timestamp <$> Huggingface.turns (Huggingface.row_turns idx row c g) =
    (λ k, Huggingface.base_timestamp + Z.of_nat idx * 5 * 60 + (k - 1) * 60) <$> sub.
Proof.
  unfold Huggingface.row_turns, Random.randint, Random.choice. cbv beta iota zeta.
  edestruct pairs_timestamps as (sub & Hsub & ->). by exists sub.
Qed.

Lemma huggingface_transform_sorted ds idx acc c g :
  StronglySorted Z.lt (timestamp <$> acc) →
  Forall (λ t, timestamp t < Huggingface.base_timestamp + Z.of_nat idx * 5 * 60) acc →
  StronglySorted Z.lt (timestamp <$> Huggingface.transform idx ds acc c g).
Proof.
  revert idx acc c g. induction ds as [|row ds IH]; intros idx acc c g Hs Hb; [done|].
  cbn [Huggingface.transform].
  destruct (huggingface_row_timestamps idx row c g) as (sub & Hsub & Hts).
  assert (Forall (λ k, 1 ≤ k ≤ 4) sub) as Hrange.
  { rewrite Forall_forall. intros k Hk.
    assert (k ∈ [1; 2; 3; 4]) as Hin by (by eapply elem_of_sublist).
    set_unfold in Hin. lia. }
  apply IH.
  - rewrite fmap_app. apply StronglySorted_app. split; [|split; [done|]].
    + intros x y Hx Hy. rewrite Hts in Hy.
      apply list_elem_of_fmap in Hx as (t & -> & Ht).
      apply list_elem_of_fmap in Hy as (k & -> & Hk).
      rewrite Forall_forall in Hb. rewrite Forall_forall in Hrange.
      specialize (Hb t Ht). specialize (Hrange k Hk).
      simpl in Hb. lia.
    + rewrite Hts. eapply StronglySorted_fmap;
        [|eapply StronglySorted_sublist; [exact Hsub|]].
      * intros x y Hxy. simpl. instantiate (1 := Z.lt) in Hxy. lia.
      * repeat constructor; lia.
  - apply Forall_app. split.
    + eapply Forall_impl; [exact Hb|]. intros t Ht. simpl in *. lia.
    + apply (proj1 (Forall_fmap timestamp
               (λ x, x < Huggingface.base_timestamp + Z.of_nat (S idx) * 5 * 60) _)).
      rewrite Hts. rewrite Forall_fmap. eapply Forall_impl; [exact Hrange|].
      intros k Hk. unfold compose. cbv beta in *. lia.
Qed.

(** C8, as stated, fails for flattener A: two source records with the same
    conversation_hash and the same timestamp put two turns of equal
    timestamp under one session_id. *)
Lemma C8_shared_hash_not_increasing :
  ∃ t1 t2, rows_written (Wildchat.main duplicated_hash quiet) = [t1; t2]
           ∧ session_id t1 = session_id t2
           ∧ ¬ (timestamp t1 < timestamp t2).
Proof.
  eexists _, _. split; [|split].
  - rewrite wildchat_rows_written. reflexivity.
  - reflexivity.
  - vm_compute. discriminate.
Qed.

Lemma huggingface_row_stamped idx row c g :
  stamped <$> Huggingface.turns (Huggingface.row_turns idx row c g) =
  (λ k, (Huggingface.base_timestamp + Z.of_nat idx * 5 * 60 + (k - 1) * 60,
         pair_text row k))
    <$> filter (λ k, Is_true (taken row k)) [1; 2; 3; 4].
Proof.
  unfold Huggingface.row_turns, Random.randint, Random.choice. cbv beta iota zeta.
  by rewrite pairs_stamped.
Qed.

Lemma wildchat_number_fmap {B} (f : Turn → B) c ts :
  (∀ n t, f (Wildchat.set_turn_id n t) = f t) →
  f <$> (Wildchat.number c ts).1 = f <$> ts.
Proof.
  intros Hf. revert c. induction ts as [|t ts IH]; intros c; simpl; [done|].
  specialize (IH (c + 1)). destruct (Wildchat.number (c + 1) ts) as [out c'].
  simpl in *. rewrite Hf. f_equal. exact IH.
Qed.

Lemma wildchat_row_turns_session idx row g :
  Forall (λ t, session_id t = record_session idx row) (Wildchat.row_turns idx row g).1.
Proof.
  unfold Wildchat.row_turns.
  destruct (Wildchat.row_messages row) as [[|m ms]|]; simpl; [done| |done].
  eapply Forall_impl; [by apply foldl_step_of_record|]. by intros t (H & _).
Qed.

Lemma wildchat_numbered_session idx row c g :
  Forall (λ t, session_id t = record_session idx row)
         (Wildchat.number c (Wildchat.row_turns idx row g).1).1.
Proof. apply wildchat_number_Forall; [done|apply wildchat_row_turns_session]. Qed.

Lemma wildchat_row_turns_timestamps idx row g :
  ∃ base n, timestamp <$> (Wildchat.row_turns idx row g).1 =
            (λ k : nat, base + 30 * Z.of_nat k) <$> seq 1 n.
Proof.
  unfold Wildchat.row_turns.
  destruct (Wildchat.row_messages row) as [[|m ms]|]; [by exists 0, 0%nat| |by exists 0, 0%nat].
  eexists _, _. apply wildchat_extract_timestamps.
Qed.

(** Records of other sessions add nothing to a session. *)
Lemma wildchat_transform_other s ds idx acc c g :
  s ∉ record_sessions idx ds →
  filter (λ t, session_id t = s) (Wildchat.transform idx ds acc c g) =
  filter (λ t, session_id t = s) acc.
Proof.
  revert idx acc c g. induction ds as [|row ds IH]; intros idx acc c g Hs; [done|].
  cbn [record_sessions] in Hs. apply not_elem_of_cons in Hs as [Hrow Hs].
  cbn [Wildchat.transform].
  pose proof (wildchat_numbered_session idx row c g) as Hn.
  destruct (Wildchat.row_turns idx row g) as [ts g']. cbn [fst] in Hn.
  destruct (Wildchat.number c ts) as [numbered c']. cbn [fst] in Hn.
  rewrite IH by done. rewrite filter_app, (filter_none _ numbered), app_nil_r; [done|].
  eapply Forall_impl; [exact Hn|]. intros t Ht. cbv beta in *. congruence.
Qed.

(** With pairwise distinct session ids, the turns of a session are the
    turns of one record. *)
Lemma wildchat_transform_session s ds idx acc c g :
  NoDup (record_sessions idx ds) →
  filter (λ t, session_id t = s) acc = [] →
  ∃ base n,
    timestamp <$> filter (λ t, session_id t = s) (Wildchat.transform idx ds acc c g) =
    (λ k : nat, base + 30 * Z.of_nat k) <$> seq 1 n.
Proof.
  revert idx acc c g. induction ds as [|row ds IH]; intros idx acc c g Hnd Hacc.
  { exists 0, 0%nat. simpl. by rewrite Hacc. }
  cbn [record_sessions] in Hnd. apply NoDup_cons in Hnd as [Hrow Hnd].
  cbn [Wildchat.transform].
  pose proof (wildchat_numbered_session idx row c g) as Hn.
  pose proof (wildchat_row_turns_timestamps idx row g) as (base & n & Hts).
  pose proof (wildchat_number_fmap timestamp c (Wildchat.row_turns idx row g).1
                (λ _ _, eq_refl)) as Hnum.
  destruct (Wildchat.row_turns idx row g) as [ts g']. cbn [fst] in *.
  destruct (Wildchat.number c ts) as [numbered c']. cbn [fst] in *.
  destruct (decide (record_session idx row = s)) as [<-|Hne].
  - exists base, n. rewrite wildchat_transform_other by done.
    rewrite filter_app, Hacc, (filter_all _ numbered) by done. simpl. congruence.
  - apply IH; [done|]. rewrite filter_app, Hacc, (filter_none _ numbered); [done|].
    eapply Forall_impl; [exact Hn|]. intros t Ht. cbv beta in *. congruence.
Qed.

(** C8 (amended). Flattener A: the turns of one source record carry
    base + 30 s, base + 60 s, ...; when no two source records share a
    session id (the conversation_hash, or conv_<idx> where it is missing),
    the timestamps within every session_id of the output strictly increase,
    each exactly 30 seconds after the one before. Flattener B: the turn of
    pair k of the record at position idx, for each k in 1..4 whose two cells
    hold text that is not blank, carries epoch + 5 min * idx + (k - 1) min
    and the two trimmed texts of that pair; the timestamps of the whole
    output, hence of every session_id in it, strictly increase. *)
Theorem C8_timestamps_per_record :
  (∀ msgs ch ip mdl base g,
     let ts := timestamp <$>
                 (Wildchat.extract_turns_from_messages msgs ch ip mdl base g).1 in
     ts = (λ k : nat, base + 30 * Z.of_nat k) <$> seq 1 (length ts)
     ∧ spaced 30 ts ∧ StronglySorted Z.lt ts) ∧
  (∀ ds g s,
     NoDup (record_sessions 0 ds) →
     let ts := timestamp <$> filter (λ t, session_id t = s)
                               (rows_written (Wildchat.main ds g)) in
     spaced 30 ts ∧ StronglySorted Z.lt ts) ∧
  (∀ idx row c g,
     stamped <$> Huggingface.turns (Huggingface.row_turns idx row c g) =
     (λ k, (Huggingface.base_timestamp + Z.of_nat idx * 5 * 60 + (k - 1) * 60,
            pair_text row k))
       <$> filter (λ k, Is_true (taken row k)) [1; 2; 3; 4]) ∧
  (∀ environ argv ds g s,
     StronglySorted Z.lt
       (timestamp <$> filter (λ t, session_id t = s)
                        (rows_written (Huggingface.main environ argv ds g)))).
Proof.
  split; [|split; [|split]].
  - intros msgs ch ip mdl base g ts.
    pose proof (wildchat_extract_timestamps msgs ch ip mdl base g) as H.
    fold ts in H. split; [done|]. rewrite H. split; [apply spaced_seq|apply sorted_seq].
  - intros ds g s Hnd ts. subst ts. rewrite wildchat_rows_written.
    destruct (wildchat_transform_session s ds 0 [] 1 g Hnd eq_refl) as (base & n & ->).
    split; [apply spaced_seq|apply sorted_seq].
  - apply huggingface_row_stamped.
  - intros environ argv ds g s.
    eapply StronglySorted_sublist; [apply fmap_sublist, sublist_filter|].
    destruct (Huggingface.token_truthy (Huggingface.token_of environ argv)) eqn:H.
    + rewrite huggingface_rows_written by done.
      apply huggingface_transform_sorted; constructor.
    + unfold rows_written. rewrite huggingface_main_exit by done. constructor.
Qed.

Lemma C8_timestamps_per_record_witness :
  timestamp <$> filter (λ t, session_id t = "h2")
                  (rows_written (Wildchat.main two_sessions quiet)) = [30; 60]
  ∧ spaced 30 [30; 60] ∧ StronglySorted Z.lt [30; 60].
Proof.
  assert (timestamp <$> filter (λ t, session_id t = "h2")
                          (rows_written (Wildchat.main two_sessions quiet)) = [30; 60])
    as E by (rewrite wildchat_rows_written; reflexivity).
  split; [exact E|]. rewrite <- E.
  destruct C8_timestamps_per_record as (_ & H & _).
  apply (H two_sessions quiet "h2"). vm_compute.
  repeat constructor; set_solver.
Defined.

(** ** The sampler: grouping *)

Section grouping.
Import Subset.

Lemma append_row_keys s r convs :
  (append_row s r convs).*1 =
  if decide (s ∈ convs.*1) then convs.*1 else convs.*1 ++ [s].
Proof.
  induction convs as [|[k rows] convs IH]; [done|].
  cbn [append_row]. destruct (decide (k = s)) as [->|Hk]; rewrite !fmap_cons; cbn [fst].
  - rewrite decide_True; [done|]. left.
  - rewrite IH. destruct (decide (s ∈ convs.*1)) as [Hin|Hin].
    + rewrite decide_True; [done|]. by right.
    + rewrite decide_False; [done|]. rewrite elem_of_cons. naive_solver.
Qed.

Lemma rows_of_append_row s r convs s' :
  rows_of (append_row s r convs) s' =
  if decide (s = s') then rows_of convs s ++ [r] else rows_of convs s'.
Proof.
  induction convs as [|[k rows] convs IH]; cbn [append_row rows_of].
  - repeat case_decide; by simplify_eq.
  - destruct (decide (k = s)); cbn [rows_of]; rewrite ?IH;
      repeat case_decide; by simplify_eq.
Qed.

Lemma append_row_nonempty s r convs :
  Forall (λ kv, kv.2 ≠ []) convs → Forall (λ kv, kv.2 ≠ []) (append_row s r convs).
Proof.
  induction 1 as [|[k rows] convs Hk Hc IH]; simpl.
  - by repeat constructor.
  - destruct (decide (k = s)); constructor; simpl in *; auto.
    by destruct rows.
Qed.

Lemma grouped_append convs seen r :
  grouped convs seen → grouped (append_row (session r) r convs) (seen ++ [r]).
Proof.
  intros (Hnd & Hne & Hrows). split; [|split].
  - rewrite append_row_keys. destruct (decide _); [done|].
    apply NoDup_app. split; [done|]. split; [|apply NoDup_singleton].
    intros x Hx ->%list_elem_of_singleton. done.
  - by apply append_row_nonempty.
  - intros s. rewrite rows_of_append_row, filter_app, !Hrows.
    rewrite filter_cons, filter_nil. destruct (decide (session r = s)) as [->|Hs].
    + done.
    + by rewrite app_nil_r.
Qed.

Lemma grouped_group table convs seen :
  grouped convs seen → grouped (group table convs) (seen ++ table).
Proof.
  revert convs seen. induction table as [|r table IH]; intros convs seen H; simpl.
  - by rewrite app_nil_r.
  - replace (seen ++ r :: table) with ((seen ++ [r]) ++ table)
      by (by rewrite <- app_assoc).
    apply IH. by apply grouped_append.
Qed.

Lemma grouped_table table : grouped (group table []) table.
Proof.
  apply (grouped_group table [] []). split; [constructor|]. split; [constructor|done].
Qed.

Lemma rows_of_key convs s :
  Forall (λ kv, kv.2 ≠ []) convs → s ∈ convs.*1 ↔ rows_of convs s ≠ [].
Proof.
  induction 1 as [|[k rows] convs Hk Hc IH]; simpl.
  - split; [by intros ?%elem_of_nil|done].
  - rewrite elem_of_cons. destruct (decide (k = s)) as [->|Hks]; [naive_solver|].
    rewrite IH. naive_solver.
Qed.

Lemma rows_of_elem convs s rows :
  NoDup convs.*1 → (s, rows) ∈ convs → rows_of convs s = rows.
Proof.
  induction convs as [|[k rs] convs IH]; simpl; [by intros _ ?%elem_of_nil|].
  intros [Hk Hnd]%NoDup_cons [[= -> ->]|Hin]%elem_of_cons.
  - by rewrite decide_True.
  - rewrite decide_False; [by apply IH|]. intros ->. apply Hk.
    apply list_elem_of_fmap. by exists (s, rows).
Qed.

Lemma elem_of_filter_keys (P : string * list (gmap string string) → Prop)
    `{∀ x, Decision (P x)} convs s :
  NoDup convs.*1 → Forall (λ kv, kv.2 ≠ []) convs →
  s ∈ (filter P convs).*1 ↔ rows_of convs s ≠ [] ∧ P (s, rows_of convs s).
Proof.
  intros Hnd Hne. rewrite list_elem_of_fmap. split.
  - intros ([k rows] & -> & [HP Hin]%list_elem_of_filter). simpl in *.
    rewrite (rows_of_elem convs k rows) by done. split; [|done].
    rewrite Forall_forall in Hne. by apply (Hne (k, rows)).
  - intros [Hs HP]. apply rows_of_key in Hs; [|done].
    apply list_elem_of_fmap in Hs as ([k rows] & -> & Hin). simpl in *.
    exists (k, rows). split; [done|]. apply list_elem_of_filter. split; [|done].
    by rewrite <- (rows_of_elem convs k rows).
Qed.

End grouping.

Lemma pool_single_spec table s :
  s ∈ pool_single table ↔ length (filter (λ r, session r = s) table) = 1%nat.
Proof.
  destruct (grouped_table table) as (Hnd & Hne & Hrows).
  unfold pool_single, Subset.single_turn.
  etrans; [by apply (elem_of_filter_keys (λ kv, length kv.2 = 1%nat))|].
  rewrite Hrows. destruct (filter _ table); simpl; naive_solver.
Qed.

Lemma pool_multi_spec table s :
  s ∈ pool_multi table ↔ (2 ≤ length (filter (λ r, session r = s) table))%nat.
Proof.
  destruct (grouped_table table) as (Hnd & Hne & Hrows).
  unfold pool_multi, Subset.multi_turn.
  etrans; [by apply (elem_of_filter_keys (λ kv, length kv.2 ≠ 1%nat))|].
  rewrite Hrows. destruct (filter _ table) as [|? [|]]; simpl;
    (split; [intros [H1 H2]|intros H]); simpl in *; try lia; done.
Qed.

Lemma pools_NoDup table : NoDup (pool_single table ++ pool_multi table).
Proof.
  destruct (grouped_table table) as (Hnd & _ & _).
  apply NoDup_app. split; [|split].
  - eapply sublist_NoDup; [exact Hnd|]. apply fmap_sublist, sublist_filter.
  - intros s Hs Hm. apply pool_single_spec in Hs. apply pool_multi_spec in Hm. lia.
  - eapply sublist_NoDup; [exact Hnd|]. apply fmap_sublist, sublist_filter.
Qed.

Lemma pools_cover table s :
  s ∈ pool_single table ++ pool_multi table ↔ ∃ r, r ∈ table ∧ session r = s.
Proof.
  rewrite elem_of_app, pool_single_spec, pool_multi_spec. split.
  - intros H. assert (filter (λ r, session r = s) table ≠ []) as Hne.
    { intros E. rewrite E in H. simpl in H. lia. }
    destruct (filter _ table) as [|r l] eqn:E; [done|].
    assert (r ∈ filter (λ r, session r = s) table) as Hr by (rewrite E; left).
    apply list_elem_of_filter in Hr as [Hs Hr]. by exists r.
  - intros (r & Hr & Hs).
    assert (r ∈ filter (λ r, session r = s) table) as Hin
      by (by apply list_elem_of_filter).
    destruct (filter _ table) as [|? [|]]; simpl; [by apply elem_of_nil in Hin|auto|].
    right. lia.
Qed.

(** ** The sampler: drawing without replacement *)

Lemma pool_step_perm {A} (pool : list A) j x z :
  pool !! j = Some x → last pool = Some z →
  x :: take (length pool - 1) (<[j := z]> pool) ≡ₚ pool.
Proof.
  intros Hj [init ->]%last_Some.
  rewrite length_app. simpl. replace (length init + 1 - 1)%nat with (length init) by lia.
  destruct (decide (j < length init)%nat) as [Hlt|Hge].
  - rewrite take_insert_lt by done. rewrite take_app_length.
    rewrite lookup_app_l in Hj by done.
    rewrite insert_take_drop by done.
    rewrite <- (take_drop_middle init j x Hj) at 3.
    rewrite <- (Permutation_cons_append (take j init ++ x :: drop (S j) init) z).
    rewrite <- !Permutation_middle. apply perm_swap.
  - rewrite take_insert_ge by lia. rewrite take_app_length.
    assert (j = length init) as ->.
    { apply lookup_lt_Some in Hj. rewrite length_app in Hj. simpl in Hj. lia. }
    rewrite list_lookup_middle in Hj by done. injection Hj as ->.
    apply Permutation_cons_append.
Qed.

Lemma sample_pool_perm {A} k : ∀ (pool : list A) g,
  ∃ rest, pool ≡ₚ (Subset.sample_pool pool k g).1 ++ rest ∧
          ((k ≤ length pool)%nat → length (Subset.sample_pool pool k g).1 = k).
Proof.
  induction k as [|k IH]; intros pool g; simpl.
  - exists pool. by split.
  - destruct pool as [|a pool'] eqn:Epool.
    { exists []. split; [done|]. simpl. lia. }
    rewrite <- Epool.
    assert (Z.to_nat (g 0%nat `mod` Z.of_nat (length pool)) < length pool)%nat as Hj.
    { assert (0 < Z.of_nat (length pool)) by (rewrite Epool; simpl; lia).
      pose proof (Z.mod_pos_bound (g 0%nat) (Z.of_nat (length pool))). lia. }
    destruct (lookup_lt_is_Some_2 _ _ Hj) as [x Hx]. rewrite Hx.
    assert (is_Some (last pool)) as [z Hz] by (apply last_is_Some; by rewrite Epool).
    rewrite Hz.
    pose proof (pool_step_perm pool _ x z Hx Hz) as Hperm.
    set (pool2 := take (length pool - 1) _) in *.
    destruct (IH pool2 (Random.next g)) as (rest & Hrest & Hlen).
    destruct (Subset.sample_pool pool2 k (Random.next g)) as [picked g'].
    simpl in *. exists rest. split.
    + by rewrite <- Hperm, Hrest.
    + intros Hk. f_equal. apply Hlen.
      apply Permutation_length in Hperm. simpl in Hperm. lia.
Qed.

Lemma sample_pool_submseteq {A} k (pool : list A) g :
  (Subset.sample_pool pool k g).1 ⊆+ pool.
Proof.
  destruct (sample_pool_perm k pool g) as (rest & Hp & _).
  etrans; [|apply Permutation_submseteq; symmetry; exact Hp].
  by apply submseteq_inserts_r.
Qed.

Lemma sample_pool_length {A} k (pool : list A) g :
  (k ≤ length pool)%nat → length (Subset.sample_pool pool k g).1 = k.
Proof. destruct (sample_pool_perm k pool g) as (rest & _ & H). exact H. Qed.

Lemma sample_pool_all {A} k (pool : list A) g :
  k = length pool → (Subset.sample_pool pool k g).1 ≡ₚ pool.
Proof.
  intros ->. apply submseteq_length_Permutation; [apply sample_pool_submseteq|].
  by rewrite sample_pool_length.
Qed.

(** ** The sampler: the selected sessions *)

Lemma chosen_submseteq rt table :
  chosen rt table ⊆+ pool_single table ++ pool_multi table.
Proof. apply submseteq_app; apply sample_pool_submseteq. Qed.

Lemma chosen_NoDup rt table : NoDup (chosen rt table).
Proof.
  destruct (submseteq_Permutation _ _ (chosen_submseteq rt table)) as [k Hk].
  pose proof (pools_NoDup table) as H. rewrite Hk in H.
  by apply NoDup_app in H as [H _].
Qed.

Lemma chosen_length rt table :
  length (chosen rt table) =
  ((300 `min` length (pool_single table)) + (200 `min` length (pool_multi table)))%nat.
Proof.
  unfold chosen. cbv zeta. rewrite length_app, !sample_pool_length; lia.
Qed.

Lemma selection_perm rt table :
  Subset.set_iteration (Subset.set_iter rt) → selection rt table ≡ₚ chosen rt table.
Proof.
  intros Hset. destruct (Hset (chosen rt table)) as [Hnd Hel].
  apply NoDup_Permutation; [done|apply chosen_NoDup|done].
Qed.

(** ** The sampler: sorting by key *)

Lemma insert_sorted_perm {A} (x : Z * A) l : Subset.insert_sorted x l ≡ₚ x :: l.
Proof.
  induction l as [|y l IH]; simpl; [done|].
  destruct (decide (x.1 ≤ y.1)); [done|]. rewrite IH. apply perm_swap.
Qed.

Lemma stable_sort_perm {A} (l : list (Z * A)) : Subset.stable_sort l ≡ₚ l.
Proof.
  induction l as [|x l IH]; simpl; [done|].
  by rewrite insert_sorted_perm, IH.
Qed.

Lemma insert_sorted_sorted {A} (x : Z * A) l :
  StronglySorted (λ a b, a.1 ≤ b.1) l →
  StronglySorted (λ a b, a.1 ≤ b.1) (Subset.insert_sorted x l).
Proof.
  induction 1 as [|y l Hl IH Hy]; simpl; [repeat constructor|].
  destruct (decide (x.1 ≤ y.1)) as [Hxy|Hxy].
  - constructor; [by constructor|]. constructor; [done|].
    eapply Forall_impl; [exact Hy|]. intros z Hz. simpl in *. lia.
  - constructor; [done|]. rewrite insert_sorted_perm. constructor; [lia|done].
Qed.

Lemma stable_sort_sorted {A} (l : list (Z * A)) :
  StronglySorted (λ a b, a.1 ≤ b.1) (Subset.stable_sort l).
Proof.
  induction l as [|x l IH]; simpl; [constructor|]. by apply insert_sorted_sorted.
Qed.

(** ** The sampler: the shape of a run *)

Lemma bind_value {R A B} l a (f : A → Script R B) :
  bind (l, inr a) f = (l ++ events (f a), outcome (f a)).
Proof. unfold bind. by destruct (f a). Qed.

Lemma bind_raise {R A B} l e (f : A → Script R B) : bind (l, inl e) f = (l, inl e).
Proof. done. Qed.

Lemma sort_key_Some rt row k :
  Subset.sort_key rt row = inr k ↔ row !! "turn_id" ≫= Subset.int rt = Some k.
Proof.
  unfold Subset.sort_key. destruct (row !! "turn_id") as [s|]; simpl; [|naive_solver].
  destruct (Subset.int rt s); naive_solver.
Qed.

Lemma sort_key_has_key rt row :
  has_key rt row → Subset.sort_key rt row = inr (key rt row).
Proof. intros [k Hk]. apply sort_key_Some. unfold key. by rewrite Hk. Qed.

Lemma sort_key_no_key rt row :
  ¬ has_key rt row → ∃ e, Subset.sort_key rt row = inl e.
Proof.
  intros H. destruct (Subset.sort_key rt row) as [e|k] eqn:E; [by exists e|].
  destruct H. exists k. by apply sort_key_Some.
Qed.

Lemma keyed_ok rt rows :
  Forall (has_key rt) rows →
  Subset.keyed (R := gmap string string) rt rows
  = ([], inr ((λ r, (key rt r, r)) <$> rows)).
Proof.
  induction 1 as [|r rows Hr Hrows IH]; simpl; [done|].
  rewrite (sort_key_has_key rt r Hr), IH. done.
Qed.

Lemma keyed_fail rt rows :
  ¬ Forall (has_key rt) rows →
  ∃ e, Subset.keyed (R := gmap string string) rt rows = ([], inl e).
Proof.
  induction rows as [|r rows IH]; intros H; simpl; [by destruct H|].
  destruct (Subset.sort_key rt r) as [e|k] eqn:E; [by exists e|].
  destruct IH as [e He].
  - intros Hrows. apply H. constructor; [|done]. exists k. by apply sort_key_Some.
  - exists e. by rewrite He.
Qed.

Lemma read_rows_ok table convs :
  Forall has_session table →
  Subset.read_rows table convs = ([], inr (group table convs)).
Proof.
  intros H. revert convs. induction H as [|r table [s Hs] Ht IH]; intros convs; simpl;
    [done|].
  rewrite Hs, IH. unfold session. by rewrite Hs.
Qed.

Lemma read_rows_fail table convs :
  ¬ Forall has_session table → ∃ e, Subset.read_rows table convs = ([], inl e).
Proof.
  revert convs. induction table as [|r table IH]; intros convs H; simpl;
    [by destruct H|].
  destruct (r !! "session_id") as [s|] eqn:Hs; [|by eexists].
  apply IH. intros Ht. apply H. constructor; [by exists s|done].
Qed.

Lemma clamp_value what target available :
  Subset.clamp (R := gmap string string) what target available
  = (events (Subset.clamp (R := gmap string string) what target available),
     inr (target `min` available)%nat).
Proof.
  unfold Subset.clamp. destruct (decide (available < target)%nat); simpl.
  - by rewrite Nat.min_r by lia.
  - by rewrite Nat.min_l by lia.
Qed.

Lemma main_read_fail rt table :
  ¬ Forall has_session table → ∃ e, Subset.main rt table = ([], inl e).
Proof.
  intros H. destruct (read_rows_fail table [] H) as [e He].
  exists e. unfold Subset.main. by rewrite He.
Qed.

Lemma main_sampled rt table :
  Forall has_session table →
  Subset.main rt table =
  bind (warnings table, inr ())
    (λ _, let* ks := Subset.keyed rt (collected rt table) in
          tell (WriteCsv (Subset.renumber (Subset.stable_sort ks).*2)) ;;;
          if decide (length (selection rt table) = 0%nat)
          then raise ZeroDivisionError else ret ()).
Proof.
  intros H. unfold Subset.main. rewrite (read_rows_ok table [] H).
  unfold bind at 1. cbv beta iota.
  fold (pool_single table) (pool_multi table).
  rewrite (clamp_value "single-turn"). unfold bind at 1. cbv beta iota.
  rewrite (clamp_value "multi-turn"). unfold bind at 1. cbv beta iota.
  unfold Subset.sample. rewrite !decide_True by lia.
  unfold ret at 1. unfold bind at 1. cbv beta iota.
  destruct (Subset.sample_pool (pool_single table) _ _) as [s1 g1] eqn:E1.
  unfold ret at 1. unfold bind at 1. cbv beta iota.
  destruct (Subset.sample_pool (pool_multi table) _ g1) as [s2 g2] eqn:E2.
  unfold warnings, collected, selection, chosen. cbv zeta.
  rewrite E1. cbn [fst snd]. rewrite E2. cbn [fst snd].
  unfold bind at 3. cbv beta iota.
  rewrite decide_True by lia. cbv beta iota.
  destruct (bind (Subset.keyed _ _) _) as [l o]. simpl. by rewrite app_assoc.
Qed.

Lemma main_key_fail rt table :
  Forall has_session table → ¬ Forall (has_key rt) (collected rt table) →
  ∃ e, Subset.main rt table = (warnings table, inl e).
Proof.
  intros Hs Hk. destruct (keyed_fail rt _ Hk) as [e He]. exists e.
  rewrite main_sampled by done. rewrite bind_value, He. simpl.
  unfold events. simpl. by rewrite app_nil_r.
Qed.

Lemma main_ok rt table :
  Forall has_session table → Forall (has_key rt) (collected rt table) →
  Subset.main rt table =
  (warnings table ++ [WriteCsv (Subset.renumber (kept rt table))],
   if decide (length (selection rt table) = 0%nat)
   then inl ZeroDivisionError else inr ()).
Proof.
  intros Hs Hk. rewrite main_sampled by done. rewrite bind_value.
  rewrite (keyed_ok rt _ Hk). unfold kept.
  by destruct (decide (length (selection rt table) = 0%nat)).
Qed.

Lemma warnings_no_write table : omap is_write (warnings table) = [].
Proof.
  unfold warnings, Subset.clamp. rewrite omap_app.
  by repeat destruct (decide _).
Qed.

Lemma written_after_warnings table rows o :
  written (A := unit) (warnings table ++ [WriteCsv rows], o) = Some rows.
Proof.
  unfold written, events. simpl.
  rewrite omap_app, warnings_no_write. done.
Qed.

Lemma written_only_warnings table (o : exn + unit) :
  written (warnings table, o) = None.
Proof.
  unfold written, events. simpl.
  by rewrite warnings_no_write.
Qed.

(** ** The sampler: the collected rows *)

Lemma filter_disjoint_union {A} (P Q : A → Prop)
    `{∀ x, Decision (P x)} `{∀ x, Decision (Q x)} (l : list A) :
  (∀ x, P x → Q x → False) →
  filter P l ++ filter Q l ≡ₚ filter (λ x, P x ∨ Q x) l.
Proof.
  intros Hdisj. induction l as [|x l IH]; [done|].
  rewrite !filter_cons.
  destruct (decide (P x)) as [HP|HP], (decide (Q x)) as [HQ|HQ].
  - by destruct (Hdisj x).
  - rewrite decide_True by auto. simpl. by rewrite IH.
  - rewrite decide_True by auto. rewrite <- Permutation_middle. by rewrite IH.
  - rewrite decide_False by tauto. done.
Qed.

Lemma concat_filter_perm (sel : list string) (table : list (gmap string string)) :
  NoDup sel →
  concat ((λ s, filter (λ r, session r = s) table) <$> sel)
  ≡ₚ filter (λ r, session r ∈ sel) table.
Proof.
  induction 1 as [|s sel Hs Hnd IH]; simpl.
  - induction table as [|r table IHt]; [done|].
    rewrite filter_cons. rewrite decide_False; [done|]. apply not_elem_of_nil.
  - rewrite IH. rewrite filter_disjoint_union.
    + erewrite list_filter_iff; [done|]. intros r. simpl. rewrite elem_of_cons.
      naive_solver.
    + intros r <- Hin. done.
Qed.

Lemma collected_rows rt table :
  collected rt table =
  concat ((λ s, filter (λ r, session r = s) table) <$> selection rt table).
Proof.
  unfold collected. f_equal. apply list_fmap_ext. intros _ s _.
  by destruct (grouped_table table) as (_ & _ & ->).
Qed.

Lemma collected_perm rt table :
  Subset.set_iteration (Subset.set_iter rt) →
  collected rt table ≡ₚ filter (λ r, session r ∈ selection rt table) table.
Proof.
  intros Hset. rewrite collected_rows. apply concat_filter_perm.
  by destruct (Hset (chosen rt table)).
Qed.

Lemma elem_of_concat {A} (x : A) (ls : list (list A)) :
  x ∈ concat ls ↔ ∃ l, l ∈ ls ∧ x ∈ l.
Proof.
  induction ls as [|l ls IH]; simpl.
  - split; [by intros ?%elem_of_nil|]. by intros (l & ?%elem_of_nil & _).
  - rewrite elem_of_app, IH. split.
    + intros [Hx|(l' & Hl' & Hx)]; [exists l; split; [left|done]|].
      exists l'. split; [by right|done].
    + intros (l' & [->|Hl']%elem_of_cons & Hx); [by left|]. right. by exists l'.
Qed.

Lemma collected_in_table rt table r : r ∈ collected rt table → r ∈ table.
Proof.
  rewrite collected_rows. intros (l & Hl & Hr)%elem_of_concat.
  apply list_elem_of_fmap in Hl as (s & -> & _).
  by apply list_elem_of_filter in Hr as [_ Hr].
Qed.

Lemma collected_has_key rt table :
  well_formed rt table → Forall (has_key rt) (collected rt table).
Proof.
  intros Hwf. rewrite Forall_forall. intros r Hr%collected_in_table.
  unfold well_formed in Hwf. rewrite Forall_forall in Hwf. by apply Hwf.
Qed.

Lemma well_formed_sessions rt table : well_formed rt table → Forall has_session table.
Proof. intros H. eapply Forall_impl; [exact H|]. by intros r [? _]. Qed.

Lemma kept_perm rt table : kept rt table ≡ₚ collected rt table.
Proof.
  unfold kept. rewrite stable_sort_perm. rewrite <- list_fmap_compose.
  by rewrite list_fmap_id.
Qed.

Lemma kept_sorted rt table :
  StronglySorted (λ a b, key rt a ≤ key rt b) (kept rt table).
Proof.
  unfold kept.
  pose proof (stable_sort_sorted ((λ r, (key rt r, r)) <$> collected rt table)) as Hs.
  assert (Forall (λ p, p.1 = key rt p.2)
            (Subset.stable_sort ((λ r, (key rt r, r)) <$> collected rt table))) as Hk.
  { rewrite stable_sort_perm. rewrite Forall_fmap. by apply Forall_true. }
  induction Hs as [|p l Hl IH Hp]; simpl; [constructor|].
  apply Forall_cons in Hk as [Hp1 Hk]. constructor; [by apply IH|].
  rewrite Forall_fmap. rewrite Forall_forall in Hp, Hk |- *.
  intros q Hq. simpl. rewrite <- Hp1, <- (Hk q Hq). by apply Hp.
Qed.

(** ** The sampler: renumbering *)

Lemma renumber_lookup rows i :
  Subset.renumber rows !! i = (λ r, <["turn_id" := pretty (S i)]> r) <$> rows !! i.
Proof. unfold Subset.renumber. by rewrite list_lookup_imap. Qed.

Lemma renumber_length rows : length (Subset.renumber rows) = length rows.
Proof. apply length_imap. Qed.

Lemma session_insert_turn_id v (r : gmap string string) :
  session (<["turn_id" := v]> r) = session r.
Proof. unfold session. by rewrite lookup_insert_ne. Qed.

Lemma imap_Forall2 {A B} (R : A → B → Prop) (f : nat → A → B) l :
  (∀ i x, R x (f i x)) → Forall2 R l (imap f l).
Proof.
  intros H. revert f H. induction l as [|x l IH]; intros f H; simpl; constructor;
    [done|]. apply IH. intros i y. apply H.
Qed.

(** A renumbered row differs from its original in [turn_id] only. *)
Lemma renumber_same_but_turn_id rows :
  Forall2 (λ r r', session r' = session r ∧ delete "turn_id" r' = delete "turn_id" r)
          rows (Subset.renumber rows).
Proof.
  apply imap_Forall2. intros i r. split.
  - apply session_insert_turn_id.
  - apply delete_insert_eq.
Qed.

Lemma filter_session_renumbered s rows rows' :
  Forall2 (λ r r', session r' = session r ∧ delete "turn_id" r' = delete "turn_id" r)
          rows rows' →
  delete "turn_id" <$> filter (λ r, session r = s) rows'
  = delete "turn_id" <$> filter (λ r, session r = s) rows.
Proof.
  induction 1 as [|r r' rows rows' [Hs Hd] _ IH]; [done|].
  rewrite !filter_cons, Hs. destruct (decide (session r = s)); [|done].
  rewrite !fmap_cons. by rewrite Hd, IH.
Qed.

Lemma StronglySorted_lookup_lt {A} (R : relation A) l i j x y :
  StronglySorted R l → l !! i = Some x → l !! j = Some y → (i < j)%nat → R x y.
Proof.
  intros Hs. revert i j. induction Hs as [|z l Hl IH Hz]; intros i j Hi Hj Hlt.
  - by rewrite lookup_nil in Hi.
  - destruct j as [|j]; [lia|]. destruct i as [|i]; simpl in *.
    + injection Hi as ->. rewrite Forall_forall in Hz. apply Hz.
      by eapply list_elem_of_lookup_2.
    + apply (IH i j); [done..|lia].
Qed.

Lemma first_seen_iteration : Subset.set_iteration Subset.first_seen.
Proof.
  intros l. split; [apply NoDup_remove_dups|]. intros x. apply elem_of_remove_dups.
Qed.

Lemma last_first_iteration : Subset.set_iteration Subset.last_first.
Proof.
  intros l. unfold Subset.last_first. split.
  - rewrite reverse_Permutation. apply NoDup_remove_dups.
  - intros x. by rewrite elem_of_reverse, elem_of_remove_dups.
Qed.

Lemma row_of_well_formed tid sid text k :
  Subset.decimal tid = Some k →
  has_session (row_of tid sid text) ∧ has_key rt_first (row_of tid sid text).
Proof.
  intros H. split; [by exists sid|]. exists k. unfold row_of.
  rewrite lookup_insert_eq. simpl. exact H.
Qed.

(** C4 fails on a field that holds a line break stored as CR LF: the input
    is read in text mode without [newline=''] (the output is opened with
    it), so the message of the one row of [crlf_table] is written back with
    LF in place of CR LF, a field other than turn_id rewritten. *)
Theorem C4_line_break_rewritten :
  ∃ r r',
    crlf_table = [r] ∧
    written (Subset.run rt_first crlf_table) = Some [r'] ∧
    r !! "user_message" = Some (String "x" (String Text.CR (String Text.LF "y"))) ∧
    r' !! "user_message" = Some (String "x" (String Text.LF "y")) ∧
    r' !! "turn_id" = r !! "turn_id" ∧ r' !! "session_id" = r !! "session_id".
Proof.
  eexists _, _. split; [reflexivity|]. split; [vm_compute; reflexivity|].
  repeat split.
Qed.

(** The table with sessions a, b and c (turns 5, 9, 14): every row is kept,
    in the order of the original ids 2, 5, 7, 9, 14. *)
Example small_table_subset :
  written (Subset.main rt_first small_table)
  = Some [row_of "1" "a" "a1"; row_of "2" "c" "c1"; row_of "3" "b" "b1";
          row_of "4" "c" "c2"; row_of "5" "c" "c3"].
Proof. vm_compute. reflexivity. Qed.

(** ** The sampler: how many conversations, and whole ones *)

Lemma selection_in_pools rt table s :
  Subset.set_iteration (Subset.set_iter rt) →
  s ∈ selection rt table → s ∈ pool_single table ++ pool_multi table.
Proof.
  intros Hset Hs. rewrite (selection_perm rt table Hset) in Hs.
  eapply elem_of_submseteq; [exact Hs|apply chosen_submseteq].
Qed.

Lemma pool_single_selected rt table s :
  Subset.set_iteration (Subset.set_iter rt) →
  (length (pool_single table) ≤ 300)%nat → s ∈ pool_single table → s ∈ selection rt table.
Proof.
  intros Hset Hle Hs. rewrite (selection_perm rt table Hset).
  unfold chosen. cbv zeta. apply elem_of_app. left.
  rewrite sample_pool_all; [done|lia].
Qed.

Lemma pool_multi_selected rt table s :
  Subset.set_iteration (Subset.set_iter rt) →
  (length (pool_multi table) ≤ 200)%nat → s ∈ pool_multi table → s ∈ selection rt table.
Proof.
  intros Hset Hle Hs. rewrite (selection_perm rt table Hset).
  unfold chosen. cbv zeta. apply elem_of_app. right.
  rewrite sample_pool_all; [done|lia].
Qed.

Lemma kept_sessions rt table s :
  Subset.set_iteration (Subset.set_iter rt) →
  s ∈ selection rt table ↔ ∃ r, r ∈ Subset.renumber (kept rt table) ∧ session r = s.
Proof.
  intros Hset. split.
  - intros Hs.
    destruct (proj1 (pools_cover table s) (selection_in_pools rt table s Hset Hs))
      as (r & Hr & Hrs).
    assert (r ∈ kept rt table) as Hk.
    { rewrite kept_perm, collected_perm by done. apply list_elem_of_filter.
      by rewrite Hrs. }
    apply list_elem_of_lookup in Hk as [i Hi].
    exists (<["turn_id" := pretty (S i)]> r). split.
    + apply list_elem_of_lookup. exists i. by rewrite renumber_lookup, Hi.
    + by rewrite session_insert_turn_id.
  - intros (r' & [i Hi]%list_elem_of_lookup & <-).
    rewrite renumber_lookup in Hi.
    destruct (kept rt table !! i) as [r|] eqn:Hk; [|done]. injection Hi as <-.
    rewrite session_insert_turn_id.
    assert (r ∈ kept rt table) as Hin by (by eapply list_elem_of_lookup_2).
    rewrite kept_perm, collected_perm in Hin by done.
    by apply list_elem_of_filter in Hin as [Hin _].
Qed.

Lemma kept_whole rt table s :
  Subset.set_iteration (Subset.set_iter rt) → s ∈ selection rt table →
  delete "turn_id" <$> filter (λ r, session r = s) (Subset.renumber (kept rt table))
  ≡ₚ delete "turn_id" <$> filter (λ r, session r = s) table.
Proof.
  intros Hset Hs.
  rewrite (filter_session_renumbered s _ _ (renumber_same_but_turn_id (kept rt table))).
  rewrite kept_perm, collected_perm by done.
  rewrite list_filter_filter.
  erewrite list_filter_iff; [done|]. intros r. simpl. naive_solver.
Qed.

(** C5. On a turn-level table each target is the smaller of 300 (200) and
    the size of its pool, a warning line is printed exactly for a pool below
    its target, the file is written all the same, and it holds exactly
    (clamped single target) + (clamped multi target) distinct sessions, each
    with all of its rows; a pool of at most its target is selected whole. *)
Theorem C5_clamped_targets rt table :
  Subset.set_iteration (Subset.set_iter rt) → well_formed rt table →
  let singles := pool_single table in
  let multis := pool_multi table in
  let target_single := (300 `min` length singles)%nat in
  let target_multi := (200 `min` length multis)%nat in
  ∃ (sel : list string) (out : list (gmap string string)),
    events (Subset.main rt table) =
      (if decide (length singles < 300)%nat
       then [PrintLine ("Warning: Only " +:+ pretty (length singles)
                    +:+ " single-turn conversations available (need 300)")]
       else []) ++
      (if decide (length multis < 200)%nat
       then [PrintLine ("Warning: Only " +:+ pretty (length multis)
                    +:+ " multi-turn conversations available (need 200)")]
       else []) ++ [WriteCsv out] ∧
    written (Subset.main rt table) = Some out ∧
    (∀ s, s ∈ singles ↔ length (filter (λ r, session r = s) table) = 1%nat) ∧
    (∀ s, s ∈ multis ↔ (2 ≤ length (filter (λ r, session r = s) table))%nat) ∧
    NoDup sel ∧ length sel = (target_single + target_multi)%nat ∧
    (∀ s, s ∈ sel ↔ ∃ r, r ∈ out ∧ session r = s) ∧
    size (list_to_set (C := gset string) (session <$> out))
      = (target_single + target_multi)%nat ∧
    (∀ s, s ∈ sel →
       delete "turn_id" <$> filter (λ r, session r = s) out
       ≡ₚ delete "turn_id" <$> filter (λ r, session r = s) table) ∧
    ((length singles ≤ 300)%nat → ∀ s, s ∈ singles → s ∈ sel) ∧
    ((length multis ≤ 200)%nat → ∀ s, s ∈ multis → s ∈ sel).
Proof.
  intros Hset Hwf singles multis target_single target_multi.
  exists (selection rt table), (Subset.renumber (kept rt table)).
  pose proof (selection_perm rt table Hset) as Hperm.
  assert (NoDup (selection rt table)) as Hnd by (by destruct (Hset (chosen rt table))).
  assert (length (selection rt table) = (target_single + target_multi)%nat) as Hlen.
  { rewrite Hperm. apply chosen_length. }
  rewrite main_ok by eauto using well_formed_sessions, collected_has_key.
  split; [|split; [|split; [|split; [|split; [|split; [|split; [|split; [|split;
    [|split]]]]]]]]].
  - unfold events, warnings, Subset.clamp. simpl. rewrite <- app_assoc.
    fold singles multis. by repeat destruct (decide _).
  - apply written_after_warnings.
  - apply pool_single_spec.
  - apply pool_multi_spec.
  - done.
  - done.
  - intros s. by apply kept_sessions.
  - rewrite <- Hlen, <- (size_list_to_set (C := gset string)) by done.
    f_equal. apply set_eq. intros s. rewrite !elem_of_list_to_set.
    rewrite (kept_sessions rt table s Hset). rewrite list_elem_of_fmap. naive_solver.
  - intros s Hs. by apply kept_whole.
  - intros Hle s Hs. by apply pool_single_selected.
  - intros Hle s Hs. by apply pool_multi_selected.
Qed.

Lemma small_table_well_formed : well_formed rt_first small_table.
Proof. repeat constructor; try (by eexists); eexists; reflexivity. Qed.

Lemma C5_clamped_targets_witness :
  ∃ (sel : list string) (out : list (gmap string string)),
    written (Subset.main rt_first small_table) = Some out ∧
    NoDup sel ∧ length sel = 3%nat ∧
    (∀ s, s ∈ sel ↔ ∃ r, r ∈ out ∧ session r = s).
Proof.
  destruct (C5_clamped_targets rt_first small_table first_seen_iteration
              small_table_well_formed)
    as (sel & out & _ & Hw & _ & _ & Hnd & Hlen & Hsel & _).
  exists sel, out. split; [exact Hw|]. split; [exact Hnd|]. split; [|exact Hsel].
  rewrite Hlen. vm_compute. reflexivity.
Defined.

(** ** The sampler: two runs on the same table *)

Lemma chosen_same_seed rt1 rt2 table :
  Subset.seed rt1 = Subset.seed rt2 → chosen rt1 table = chosen rt2 table.
Proof. destruct rt1, rt2. simpl. intros <-. done. Qed.

Lemma key_same_int rt1 rt2 r : Subset.int rt1 = Subset.int rt2 → key rt1 r = key rt2 r.
Proof. destruct rt1, rt2. simpl. intros <-. done. Qed.

Lemma has_key_same_int rt1 rt2 r :
  Subset.int rt1 = Subset.int rt2 → has_key rt1 r ↔ has_key rt2 r.
Proof. destruct rt1, rt2. simpl. intros <-. done. Qed.

Lemma selection_same rt1 rt2 table :
  Subset.seed rt1 = Subset.seed rt2 →
  Subset.set_iteration (Subset.set_iter rt1) → Subset.set_iteration (Subset.set_iter rt2) →
  selection rt1 table ≡ₚ selection rt2 table.
Proof.
  intros Hseed H1 H2. rewrite (selection_perm rt1 table H1), (selection_perm rt2 table H2).
  by rewrite (chosen_same_seed rt1 rt2 table Hseed).
Qed.

Lemma collected_same rt1 rt2 table :
  Subset.seed rt1 = Subset.seed rt2 →
  Subset.set_iteration (Subset.set_iter rt1) → Subset.set_iteration (Subset.set_iter rt2) →
  collected rt1 table ≡ₚ collected rt2 table.
Proof.
  intros Hseed H1 H2. rewrite !collected_perm by done.
  erewrite list_filter_iff; [done|]. intros r. simpl.
  by rewrite (selection_same rt1 rt2 table Hseed H1 H2).
Qed.

Lemma kept_same rt1 rt2 table :
  Subset.int rt1 = Subset.int rt2 → Subset.seed rt1 = Subset.seed rt2 →
  Subset.set_iteration (Subset.set_iter rt1) → Subset.set_iteration (Subset.set_iter rt2) →
  distinct_turn_ids rt1 table →
  Forall (has_key rt1) (collected rt1 table) →
  kept rt1 table = kept rt2 table.
Proof.
  intros Hint Hseed H1 H2 Hdist Hkeys. unfold kept. f_equal.
  pose proof (collected_same rt1 rt2 table Hseed H1 H2) as Hc.
  apply (StronglySorted_unique_strong (λ a b, a.1 ≤ b.1));
    [|apply stable_sort_sorted..|].
  - intros [k1 r1] [k2 r2]. rewrite !stable_sort_perm, !list_elem_of_fmap.
    intros (r & [= -> ->] & Hr) (r' & [= -> ->] & Hr') Hle Hge. simpl in *.
    rewrite <- (key_same_int rt1 rt2 r' Hint) in *.
    assert (key rt1 r = key rt1 r') as Hk by lia.
    assert (has_key rt1 r) as Hkr.
    { rewrite Forall_forall in Hkeys. by apply Hkeys. }
    assert (has_key rt1 r') as Hkr'.
    { rewrite Forall_forall in Hkeys. apply Hkeys. by rewrite Hc. }
    apply collected_in_table, list_elem_of_lookup in Hr as [i Hi].
    apply collected_in_table, list_elem_of_lookup in Hr' as [j Hj].
    assert (i = j) as ->.
    { apply (Hdist i j r r' (key rt1 r) Hi Hj); [by apply sort_key_has_key|].
      rewrite Hk. by apply sort_key_has_key. }
    rewrite Hi in Hj. injection Hj as ->. done.
  - rewrite !stable_sort_perm. rewrite Hc.
    erewrite list_fmap_ext; [done|]. intros _ r _. simpl.
    by rewrite (key_same_int rt1 rt2 r Hint).
Qed.

(** C1, as stated, fails: with two single-turn sessions that both carry
    turn_id 1, the order of the written rows follows the order in which the
    set of selected sessions is enumerated, which the fixed seed does not
    determine. *)
Lemma C1_tied_ids_depend_on_set_order :
  Subset.int rt_first = Subset.int rt_last ∧
  Subset.seed rt_first = Subset.seed rt_last ∧
  Subset.set_iteration (Subset.set_iter rt_first) ∧
  Subset.set_iteration (Subset.set_iter rt_last) ∧
  written (Subset.main rt_first tied_ids)
    = Some [row_of "1" "a" "first"; row_of "2" "b" "second"] ∧
  written (Subset.main rt_last tied_ids)
    = Some [row_of "1" "b" "second"; row_of "2" "a" "first"] ∧
  written (Subset.main rt_first tied_ids) ≠ written (Subset.main rt_last tied_ids).
Proof.
  assert (written (Subset.main rt_first tied_ids)
          = Some [row_of "1" "a" "first"; row_of "2" "b" "second"]) as H1
    by (vm_compute; reflexivity).
  assert (written (Subset.main rt_last tied_ids)
          = Some [row_of "1" "b" "second"; row_of "2" "a" "first"]) as H2
    by (vm_compute; reflexivity).
  split; [reflexivity|]. split; [reflexivity|].
  split; [exact first_seen_iteration|]. split; [exact last_first_iteration|].
  split; [exact H1|]. split; [exact H2|].
  rewrite H1, H2. intros [= H _].
Qed.

(** C1 (amended). Two runs on the same table, with the same integer parser
    and the same seeded generator but any two enumeration orders of the set
    of selected sessions, print the same lines and write the same file,
    provided no two rows of the table denote the same turn_id. *)
Theorem C1_deterministic_on_distinct_ids rt1 rt2 table :
  Subset.int rt1 = Subset.int rt2 → Subset.seed rt1 = Subset.seed rt2 →
  Subset.set_iteration (Subset.set_iter rt1) →
  Subset.set_iteration (Subset.set_iter rt2) →
  distinct_turn_ids rt1 table →
  events (Subset.main rt1 table) = events (Subset.main rt2 table) ∧
  written (Subset.main rt1 table) = written (Subset.main rt2 table).
Proof.
  intros Hint Hseed H1 H2 Hdist.
  assert (events (Subset.main rt1 table) = events (Subset.main rt2 table)) as Hev;
    [|split; [done|unfold written; by rewrite Hev]].
  assert (∀ r, Decision (has_session r)) by (intros r; unfold has_session; apply _).
  assert (∀ r, Decision (has_key rt1 r)) by (intros r; unfold has_key; apply _).
  destruct (decide (Forall has_session table)) as [Hs|Hs].
  - pose proof (collected_same rt1 rt2 table Hseed H1 H2) as Hc.
    assert (Forall (has_key rt1) (collected rt1 table)
            ↔ Forall (has_key rt2) (collected rt2 table)) as Hiff.
    { rewrite Hc. apply Forall_proper; [|done]. intros r.
      by apply has_key_same_int. }
    destruct (decide (Forall (has_key rt1) (collected rt1 table))) as [Hk|Hk].
    + rewrite (main_ok rt1 table Hs Hk), (main_ok rt2 table Hs (proj1 Hiff Hk)).
      unfold events. simpl. by rewrite (kept_same rt1 rt2 table).
    + destruct (main_key_fail rt1 table Hs Hk) as [e1 ->].
      assert (¬ Forall (has_key rt2) (collected rt2 table)) as Hk2 by tauto.
      by destruct (main_key_fail rt2 table Hs Hk2) as [e2 ->].
  - destruct (main_read_fail rt1 table Hs) as [e1 ->].
    by destruct (main_read_fail rt2 table Hs) as [e2 ->].
Qed.

Lemma small_table_distinct : distinct_turn_ids rt_first small_table.
Proof.
  intros i j r1 r2 k Hi Hj K1 K2.
  destruct i as [|[|[|[|[|i]]]]]; destruct j as [|[|[|[|[|j]]]]]; try done;
    simpl in Hi, Hj; simplify_eq; vm_compute in K1, K2; congruence.
Qed.

Lemma C1_deterministic_on_distinct_ids_witness :
  events (Subset.main rt_first small_table) = events (Subset.main rt_last small_table) ∧
  written (Subset.main rt_first small_table) = written (Subset.main rt_last small_table).
Proof.
  apply (C1_deterministic_on_distinct_ids rt_first rt_last small_table).
  - reflexivity.
  - reflexivity.
  - exact first_seen_iteration.
  - exact last_first_iteration.
  - exact small_table_distinct.
Defined.

(** ** How the runs end *)


Lemma selection_nonempty rt table :
  Subset.set_iteration (Subset.set_iter rt) → table ≠ [] →
  length (selection rt table) ≠ 0%nat.
Proof.
  intros Hset Hne. rewrite (selection_perm rt table Hset), chosen_length.
  destruct table as [|r table]; [done|].
  assert (session r ∈ pool_single (r :: table) ++ pool_multi (r :: table)) as Hin.
  { apply pools_cover. exists r. split; [left|done]. }
  apply elem_of_app in Hin as [Hin|Hin].
  - destruct (pool_single (r :: table)); [by apply elem_of_nil in Hin|]. simpl. lia.
  - destruct (pool_multi (r :: table)); [by apply elem_of_nil in Hin|]. simpl. lia.
Qed.









(** * Further properties of the three scripts *)

(** ** Row identifiers of the flatteners *)

Lemma ids_upto_lookup (l : list Turn) :
  (∀ i t, l !! i = Some t → turn_id t = Some (1 + Z.of_nat i)) →
  turn_id <$> l = ids_upto (length l).
Proof.
  intros H. apply list_eq. intros i. unfold ids_upto.
  rewrite !list_lookup_fmap. destruct (l !! i) as [t|] eqn:Hi; simpl.
  - rewrite lookup_seq_lt by (by eapply lookup_lt_Some). simpl.
    rewrite (H i t Hi). do 2 f_equal. lia.
  - rewrite lookup_seq_ge; [done|]. by apply lookup_ge_None.
Qed.

Lemma wildchat_number_spec c ts :
  length (Wildchat.number c ts).1 = length ts ∧
  (Wildchat.number c ts).2 = c + Z.of_nat (length ts) ∧
  ∀ i t, (Wildchat.number c ts).1 !! i = Some t → turn_id t = Some (c + Z.of_nat i).
Proof.
  revert c. induction ts as [|t0 ts IH]; intros c; simpl.
  - split; [done|]. split; [lia|]. intros i t. by rewrite lookup_nil.
  - destruct (IH (c + 1)) as (Hl & Hc & Hi).
    destruct (Wildchat.number (c + 1) ts) as [out c']. simpl in *.
    split; [by rewrite Hl|]. split; [lia|].
    intros [|i] t Ht; simpl in Ht.
    + injection Ht as <-. simpl. f_equal. lia.
    + rewrite (Hi i t Ht). f_equal. lia.
Qed.

Lemma wildchat_transform_ids ds idx acc c g :
  c = 1 + Z.of_nat (length acc) →
  (∀ i t, acc !! i = Some t → turn_id t = Some (1 + Z.of_nat i)) →
  ∀ i t, Wildchat.transform idx ds acc c g !! i = Some t →
         turn_id t = Some (1 + Z.of_nat i).
Proof.
  revert idx acc c g. induction ds as [|row ds IH]; intros idx acc c g Hc Hacc; simpl;
    [done|].
  destruct (Wildchat.row_turns idx row g) as [ts g'].
  destruct (wildchat_number_spec c ts) as (Hl & Hc' & Hi).
  destruct (Wildchat.number c ts) as [numbered c']. simpl in *.
  apply IH.
  - rewrite length_app, Hl. lia.
  - intros i t. rewrite lookup_app_Some. intros [Ht|[Hge Ht]]; [by apply Hacc|].
    rewrite (Hi _ t Ht). f_equal. lia.
Qed.

(** X1. The rows flattener A writes carry turn_id 1, 2, ..., N in file
    order, whatever records contributed them. *)
Theorem wildchat_turn_ids_sequential ds g :
  turn_id <$> rows_written (Wildchat.main ds g)
  = ids_upto (length (rows_written (Wildchat.main ds g))).
Proof.
  rewrite wildchat_rows_written. apply ids_upto_lookup.
  apply wildchat_transform_ids; [done|]. intros i t. by rewrite lookup_nil.
Qed.

Lemma huggingface_pairs_ids row sid uid mdl ts c0 ks st :
  Huggingface.turn_id_counter st = c0 + Z.of_nat (length (Huggingface.turns st)) →
  (∀ i t, Huggingface.turns st !! i = Some t → turn_id t = Some (c0 + Z.of_nat i)) →
  let st' := foldl (Huggingface.pair_step row sid uid mdl ts) st ks in
  Huggingface.turn_id_counter st' = c0 + Z.of_nat (length (Huggingface.turns st')) ∧
  ∀ i t, Huggingface.turns st' !! i = Some t → turn_id t = Some (c0 + Z.of_nat i).
Proof.
  revert st. induction ks as [|k ks IH]; intros st Hc Hi; simpl; [done|].
  apply IH;
    destruct (pair_step_shape row sid uid mdl ts st k)
      as [->|(u & a & _ & _ & _ & _ & ->)]; simpl; try done.
  - rewrite length_app. simpl. lia.
  - intros i t. rewrite lookup_app_Some. intros [Ht|[Hge Ht]]; [by apply Hi|].
    apply list_lookup_singleton_Some in Ht as [Hz <-]. simpl.
    rewrite Hc. f_equal. lia.
Qed.

Lemma huggingface_row_ids idx row c g :
  let st := Huggingface.row_turns idx row c g in
  Huggingface.turn_id_counter st = c + Z.of_nat (length (Huggingface.turns st)) ∧
  ∀ i t, Huggingface.turns st !! i = Some t → turn_id t = Some (c + Z.of_nat i).
Proof.
  unfold Huggingface.row_turns, Random.randint, Random.choice. cbv beta iota zeta.
  apply huggingface_pairs_ids; simpl; [lia|]. intros i t. by rewrite lookup_nil.
Qed.

Lemma huggingface_transform_ids ds idx acc c g :
  c = 1 + Z.of_nat (length acc) →
  (∀ i t, acc !! i = Some t → turn_id t = Some (1 + Z.of_nat i)) →
  ∀ i t, Huggingface.transform idx ds acc c g !! i = Some t →
         turn_id t = Some (1 + Z.of_nat i).
Proof.
  revert idx acc c g. induction ds as [|row ds IH]; intros idx acc c g Hc Hacc; [done|].
  cbn [Huggingface.transform].
  destruct (huggingface_row_ids idx row c g) as [Hc' Hi].
  apply IH.
  - rewrite length_app. lia.
  - intros i t. rewrite lookup_app_Some. intros [Ht|[Hge Ht]]; [by apply Hacc|].
    rewrite (Hi _ t Ht). f_equal. lia.
Qed.

(** X2. The rows flattener B writes carry turn_id 1, 2, ..., N in file
    order: skipped pairs and records without turns leave no gap. *)
Theorem huggingface_turn_ids_sequential environ argv ds g :
  turn_id <$> rows_written (Huggingface.main environ argv ds g)
  = ids_upto (length (rows_written (Huggingface.main environ argv ds g))).
Proof.
  destruct (Huggingface.token_truthy (Huggingface.token_of environ argv)) eqn:Ht.
  - rewrite huggingface_rows_written by done. apply ids_upto_lookup.
    apply huggingface_transform_ids; [done|]. intros i t. by rewrite lookup_nil.
  - unfold rows_written. by rewrite huggingface_main_exit.
Qed.

(** ** Turns of one message list *)

Lemma paired_bounds waiting msgs :
  (length (paired waiting msgs) ≤ length (filter (speaks "assistant") msgs))%nat ∧
  (length (paired waiting msgs)
   ≤ match waiting with Some _ => 1 | None => 0 end
     + length (filter (speaks "user") msgs))%nat.
Proof.
  revert waiting. induction msgs as [|m msgs IH]; intros waiting; simpl; [lia|].
  rewrite !filter_cons.
  destruct (decide (Text.strip (Wildchat.get m "content") = "")) as [Hc|Hc].
  { rewrite !decide_False by (unfold speaks; tauto). apply IH. }
  destruct (decide (Wildchat.get m "role" = "user")) as [Hu|Hu].
  { rewrite decide_False by (unfold speaks; rewrite Hu; intros [? _]; done).
    rewrite decide_True by (by unfold speaks). simpl.
    destruct (IH (Some (Text.strip (Wildchat.get m "content")))) as [H1 H2].
    destruct waiting; lia. }
  rewrite (decide_False (P := speaks "user" m)) by (unfold speaks; tauto).
  destruct (decide (Wildchat.get m "role" = "assistant")) as [Ha|Ha].
  - rewrite decide_True by (by unfold speaks). simpl.
    destruct (IH None) as [H1 H2]. destruct waiting; simpl; lia.
  - rewrite decide_False by (unfold speaks; tauto). apply IH.
Qed.

(** X3. One call of [extract_turns_from_messages] returns no more turns
    than the list has non-blank assistant messages, and no more than it has
    non-blank user messages. *)
Theorem wildchat_turn_count_bounded msgs ch ip mdl base g :
  let n := length (Wildchat.extract_turns_from_messages msgs ch ip mdl base g).1 in
  (n ≤ length (filter (speaks "assistant") msgs))%nat ∧
  (n ≤ length (filter (speaks "user") msgs))%nat.
Proof.
  intros n.
  assert (n = length (paired None msgs)) as ->.
  { unfold n, Wildchat.extract_turns_from_messages, Wildchat.run. simpl.
    rewrite <- (length_fmap exchange), foldl_step_paired by done. done. }
  apply (paired_bounds None msgs).
Qed.

Lemma foldl_step_prefix ch ip mdl base msgs st :
  Wildchat.turns st `prefix_of`
  Wildchat.turns (foldl (Wildchat.step ch ip mdl base) st msgs).
Proof.
  revert st. induction msgs as [|m msgs IH]; intros st; simpl; [done|].
  etrans; [|apply IH].
  destruct (step_shape ch ip mdl base st m) as [->|[[-> _]|(u & _ & _ & _ & ->)]];
    simpl; [done..|]. by apply prefix_app_r.
Qed.

(** X4. Turns once emitted stay as they are: the turns of a prefix of the
    message list are a prefix of the turns of the whole list. *)
Theorem wildchat_turns_append_only ch ip mdl base g pre post :
  (Wildchat.extract_turns_from_messages pre ch ip mdl base g).1 `prefix_of`
  (Wildchat.extract_turns_from_messages (pre ++ post) ch ip mdl base g).1.
Proof.
  unfold Wildchat.extract_turns_from_messages, Wildchat.run. simpl.
  rewrite foldl_app. apply foldl_step_prefix.
Qed.

(** ** Rows of one wide record *)

Lemma pairs_of_record row sid uid mdl ts ks st :
  Forall (of_record sid uid mdl) (Huggingface.turns st) →
  Forall (of_record sid uid mdl)
         (Huggingface.turns (foldl (Huggingface.pair_step row sid uid mdl ts) st ks)).
Proof.
  revert st. induction ks as [|k ks IH]; intros st Hst; simpl; [done|].
  apply IH. destruct (pair_step_shape row sid uid mdl ts st k)
    as [->|(u & a & _ & _ & _ & _ & ->)]; [done|].
  simpl. apply Forall_app. split; [done|]. by repeat constructor.
Qed.

Lemma choice_in_MODELS g : (Random.choice "" Huggingface.MODELS g).1 ∈ Huggingface.MODELS.
Proof.
  unfold Random.choice. cbn [fst].
  pose proof (Z.mod_pos_bound (g 0%nat) (Z.of_nat (length Huggingface.MODELS))) as H.
  simpl length in *.
  assert (Z.to_nat (g 0%nat `mod` Z.of_nat 4) < 4)%nat as Hlt by lia.
  destruct (Z.to_nat (g 0%nat `mod` Z.of_nat 4)) as [|[|[|[|n]]]]; simpl;
    [set_solver..|lia].
Qed.

Lemma huggingface_record_shape idx row c g :
  let ts := Huggingface.turns (Huggingface.row_turns idx row c g) in
  (length ts ≤ 4)%nat ∧
  ∃ n mdl, 100 ≤ n ≤ 999 ∧ mdl ∈ Huggingface.MODELS ∧
    Forall (of_record ("sess_" +:+ Huggingface.pad5 (idx + 1)) ("user_" +:+ pretty n) mdl) ts.
Proof.
  intros ts. split.
  - destruct (huggingface_row_timestamps idx row c g) as (sub & Hsub & Hts).
    apply (f_equal length) in Hts. rewrite !length_fmap in Hts. fold ts in Hts.
    rewrite Hts. apply sublist_length in Hsub. simpl in Hsub. lia.
  - exists (Random.randint 100 999 g).1,
           (Random.choice "" Huggingface.MODELS (Random.randint 100 999 g).2).1.
    split; [|split].
    + unfold Random.randint. cbn [fst].
      pose proof (Z.mod_pos_bound (g 0%nat) (999 - 100 + 1)). lia.
    + apply choice_in_MODELS.
    + unfold ts, Huggingface.row_turns, Random.randint, Random.choice.
      cbv beta iota zeta. cbn [fst snd]. by apply pairs_of_record.
Qed.

(** X5. One wide record yields at most four turns; they all carry the
    session id built from the record's position, one user id user_N with
    100 <= N <= 999, and one model label out of MODELS. *)
Theorem huggingface_record_turns idx row c g :
  let ts := Huggingface.turns (Huggingface.row_turns idx row c g) in
  (length ts ≤ 4)%nat ∧
  ∃ n mdl, 100 ≤ n ≤ 999 ∧ mdl ∈ Huggingface.MODELS ∧
    Forall (of_record ("sess_" +:+ Huggingface.pad5 (idx + 1)) ("user_" +:+ pretty n) mdl) ts.
Proof. exact (huggingface_record_shape idx row c g). Qed.

Lemma huggingface_transform_length ds idx acc c g :
  (length (Huggingface.transform idx ds acc c g) ≤ length acc + 4 * length ds)%nat.
Proof.
  revert idx acc c g. induction ds as [|row ds IH]; intros idx acc c g; simpl; [lia|].
  etrans; [apply IH|]. rewrite length_app.
  destruct (huggingface_record_shape idx row c g) as [Hl _]. simpl in Hl. lia.
Qed.

(** X6. Flattener B writes at most four rows per source record. *)
Theorem huggingface_at_most_four_per_record environ argv ds g :
  (length (rows_written (Huggingface.main environ argv ds g)) ≤ 4 * length ds)%nat.
Proof.
  destruct (Huggingface.token_truthy (Huggingface.token_of environ argv)) eqn:Ht.
  - rewrite huggingface_rows_written by done.
    etrans; [apply huggingface_transform_length|]. simpl. lia.
  - unfold rows_written. rewrite huggingface_main_exit by done. simpl. lia.
Qed.

(** X7. Every row flattener B writes has a model label that is a key of its
    price table: the default price pair is never used there. *)
Theorem huggingface_never_default_price environ argv ds g :
  Forall (λ t, model t ∈ Huggingface.MODELS ∧
               Huggingface.MODEL_COSTS (model t) = Some (Huggingface.costs_of (model t)))
         (rows_written (Huggingface.main environ argv ds g)).
Proof.
  destruct (Huggingface.token_truthy (Huggingface.token_of environ argv)) eqn:Ht;
    [|unfold rows_written; by rewrite huggingface_main_exit].
  rewrite huggingface_rows_written by done.
  apply huggingface_transform_Forall; [|done].
  intros idx row c g'.
  destruct (huggingface_record_shape idx row c g') as (_ & n & mdl & _ & Hm & Hts).
  eapply Forall_impl; [exact Hts|]. intros t (_ & _ & ->). split; [done|].
  unfold Huggingface.MODELS in Hm. set_unfold in Hm.
  destruct Hm as [->|[->|[->|[->|[]]]]]; reflexivity.
Qed.

(** X8. In flattener A every key the substring tests can select is present
    in MODEL_COSTS, so the table lookup never misses. *)
Theorem wildchat_price_keys_present m k :
  Wildchat.price_key m = Some k →
  Wildchat.MODEL_COSTS k = Some (Wildchat.costs_of m).
Proof.
  unfold Wildchat.costs_of, Wildchat.price_key. cbv zeta.
  repeat (destruct (Text.contains _ _); simpl); intros [= <-]; reflexivity.
Qed.

Lemma wildchat_price_keys_present_witness :
  Wildchat.MODEL_COSTS "gpt-4-turbo" = Some (Wildchat.costs_of "GPT-4-Turbo-Preview").
Proof. apply (wildchat_price_keys_present "GPT-4-Turbo-Preview"). reflexivity. Defined.

(** ** Latency and cost of a row *)

Lemma emitted_by_latency costs t : emitted_by costs t → latency_ok t.
Proof.
  intros (_ & _ & _ & _ & g & Hm). unfold latency_ok. rewrite Hm.
  unfold generate_synthetic_metadata, Random.randint.
  cbn [fst snd latency_ms completion_tokens].
  pose proof (estimate_tokens_nonneg (assistant_message t)).
  pose proof (Z.mod_pos_bound (g 0%nat) (2000 - 1000 + 1)).
  pose proof (Z.mod_pos_bound (Random.next g 0%nat) (120 - 80 + 1)).
  nia.
Qed.

(** X9. Every row either flattener writes has
    1000 <= latency_ms <= 2000 + 120 * completion_tokens. *)
Theorem latency_within_bounds dsA gA environ argv dsB gB :
  Forall latency_ok (rows_written (Wildchat.main dsA gA)) ∧
  Forall latency_ok (rows_written (Huggingface.main environ argv dsB gB)).
Proof.
  split.
  - eapply Forall_impl; [apply wildchat_written_emitted|].
    intros t Ht. by eapply emitted_by_latency.
  - eapply Forall_impl; [apply huggingface_written_emitted|].
    intros t Ht. by eapply emitted_by_latency.
Qed.

Lemma Q2Qc_nonneg q : (0 <= q)%Q → (0 <= Q2Qc q)%Qc.
Proof. intros H. unfold Qcle. simpl. by rewrite !Qred_correct. Qed.

Lemma Qc_mult_nonneg (a b : Qc) : (0 <= a)%Qc → (0 <= b)%Qc → (0 <= a * b)%Qc.
Proof.
  intros Ha Hb. rewrite <- (Qcmult_0_l b). by apply Qcmult_le_compat_r.
Qed.

Lemma Qc_plus_nonneg (a b : Qc) : (0 <= a)%Qc → (0 <= b)%Qc → (0 <= a + b)%Qc.
Proof.
  intros Ha Hb. rewrite <- (Qcplus_0_l 0). by apply Qcplus_le_compat.
Qed.

Lemma round_half_even_nonneg x : (0 <= x)%Q → 0 ≤ round_half_even x.
Proof.
  intros Hx.
  assert (0 ≤ Qfloor x) as Hf.
  { change 0 with (Qfloor 0). by apply Qfloor_resp_le. }
  unfold round_half_even. cbv zeta.
  set (f := Qfloor x) in *. clearbody f.
  destruct (_ ?= _)%Q; [destruct (Z.even f)| |]; lia.
Qed.

Lemma pow2_pos e : (0 < pow2 e)%Q.
Proof.
  unfold pow2. destruct (0 <=? e) eqn:He.
  - apply Z.leb_le in He. unfold Qlt. simpl.
    pose proof (Z.pow_pos_nonneg 2 e). lia.
  - done.
Qed.

Lemma binary64_nonneg q : (0 <= q)%Q → (0 <= binary64 q)%Q.
Proof.
  intros Hq. unfold binary64.
  destruct (Qnum q) as [|n|n] eqn:Hn; [done| |].
  - unfold nearest_pos. cbv zeta. apply Qmult_le_0_compat.
    + assert (0 ≤ round_half_even (q / pow2 (Z.max (floor_log2 q - 52) (-1074)))) as H.
      { apply round_half_even_nonneg. apply Qle_shift_div_l; [apply pow2_pos|].
        by rewrite Qmult_0_l. }
      unfold Qle. simpl. lia.
    + apply Qlt_le_weak, pow2_pos.
  - unfold Qle in Hq. simpl in Hq. lia.
Qed.

Lemma fl_nonneg q : (0 <= q)%Q → (0 <= fl q)%Qc.
Proof. intros Hq. by apply Q2Qc_nonneg, binary64_nonneg. Qed.

Lemma round5_nonneg x : (0 <= x)%Qc → (0 <= round5 x)%Qc.
Proof.
  intros Hx. unfold round5. apply fl_nonneg.
  assert (0 ≤ round_half_even (x * inject_Z 100000)) as H.
  { apply round_half_even_nonneg, Qmult_le_0_compat; [exact Hx|done]. }
  unfold Qle. simpl. lia.
Qed.

Lemma apply_price_nonneg costs p c :
  0 ≤ p → 0 ≤ c → (0 <= input costs)%Qc → (0 <= output costs)%Qc →
  (0 <= apply_price costs p c)%Qc.
Proof.
  intros Hp Hc Hi Ho. unfold apply_price. cbv zeta.
  assert (∀ z, 0 ≤ z → (0 <= fl (Qmake z 1000))%Qc) as Hz.
  { intros z Hz. apply fl_nonneg. unfold Qle. simpl. lia. }
  assert (∀ a b : Qc, (0 <= a)%Qc → (0 <= b)%Qc → (0 <= fl (a * fl b))%Qc) as Hm.
  { intros a b Ha Hb. apply fl_nonneg, Qmult_le_0_compat; [exact Ha|].
    by apply fl_nonneg. }
  apply fl_nonneg.
  change 0%Q with (0 + 0)%Q. apply Qplus_le_compat; apply Hm; auto.
Qed.

Lemma wildchat_prices_nonneg m :
  (0 <= input (Wildchat.costs_of m))%Qc ∧ (0 <= output (Wildchat.costs_of m))%Qc.
Proof.
  unfold Wildchat.costs_of, Wildchat.price_key. cbv zeta.
  repeat (destruct (Text.contains _ _); simpl); by split.
Qed.

Lemma huggingface_prices_nonneg m :
  (0 <= input (Huggingface.costs_of m))%Qc ∧ (0 <= output (Huggingface.costs_of m))%Qc.
Proof.
  unfold Huggingface.costs_of, Huggingface.MODEL_COSTS.
  repeat case_decide; by split.
Qed.

Lemma emitted_by_cost_nonneg costs t :
  (∀ m, (0 <= input (costs m))%Qc ∧ (0 <= output (costs m))%Qc) →
  emitted_by costs t → (0 <= cost_usd (metadata t))%Qc.
Proof.
  intros Hcosts Ht. rewrite (emitted_by_cost costs t Ht).
  destruct (emitted_by_tokens costs t Ht) as (_ & Hp & Hc).
  destruct (Hcosts (model t)). by apply round5_nonneg, apply_price_nonneg.
Qed.

(** X10. No row either flattener writes has a negative cost_usd. *)
Theorem cost_never_negative dsA gA environ argv dsB gB :
  Forall (λ t, (0 <= cost_usd (metadata t))%Qc) (rows_written (Wildchat.main dsA gA)) ∧
  Forall (λ t, (0 <= cost_usd (metadata t))%Qc)
         (rows_written (Huggingface.main environ argv dsB gB)).
Proof.
  split.
  - eapply Forall_impl; [apply wildchat_written_emitted|].
    intros t Ht. eapply emitted_by_cost_nonneg; [apply wildchat_prices_nonneg|done].
  - eapply Forall_impl; [apply huggingface_written_emitted|].
    intros t Ht. eapply emitted_by_cost_nonneg; [apply huggingface_prices_nonneg|done].
Qed.

(** ** How the flatteners end *)

(** X11. On an empty dataset each flattener writes a file without rows and
    then fails with ZeroDivisionError in its closing summary, which divides
    by the number of records; no other dataset makes either end that way.
    For flattener B this presupposes a token. *)
Theorem flatteners_end dsA gA environ argv dsB gB :
  Huggingface.token_truthy (Huggingface.token_of environ argv) = true →
  ((outcome (Wildchat.main dsA gA) = inl ZeroDivisionError ↔ dsA = []) ∧
   (dsA = [] → written (Wildchat.main dsA gA) = Some [])) ∧
  ((outcome (Huggingface.main environ argv dsB gB) = inl ZeroDivisionError ↔ dsB = []) ∧
   (dsB = [] → written (Huggingface.main environ argv dsB gB) = Some [])).
Proof.
  intros Ht. split.
  - split; [|by intros ->].
    unfold Wildchat.main, outcome. simpl. destruct dsA; simpl; split; intros; done.
  - rewrite (huggingface_main_ok environ argv dsB gB Ht).
    split; [|by intros ->].
    unfold outcome. simpl. destruct dsB; simpl; split; intros; done.
Qed.

Lemma flatteners_end_witness :
  outcome (Wildchat.main [] quiet) = inl ZeroDivisionError ∧
  written (Wildchat.main [] quiet) = Some [] ∧
  outcome (Huggingface.main with_token ["transform_huggingface_dataset.py"] [] quiet)
    = inl ZeroDivisionError ∧
  written (Huggingface.main with_token ["transform_huggingface_dataset.py"] [] quiet)
    = Some [].
Proof.
  destruct (flatteners_end [] quiet with_token ["transform_huggingface_dataset.py"]
              [] quiet) as ((Hz & Hw) & (Hz' & Hw')); [reflexivity|].
  split; [by apply Hz|]. split; [by apply Hw|]. split; [by apply Hz'|by apply Hw'].
Defined.

(** ** Rows of one message-list record *)

(** X12. The turns of the record at position idx carry its
    conversation_hash, hashed_ip and model, or conv_<idx>, user_<idx> and
    "unknown" where the record lacks the field; a record whose messages are
    missing or empty yields no turn and draws nothing from the generator. *)
Theorem wildchat_record_defaults idx row g :
  Forall (of_record (default ("conv_" +:+ pretty idx) (Wildchat.row_conversation_hash row))
                    (default ("user_" +:+ pretty idx) (Wildchat.row_hashed_ip row))
                    (default "unknown" (Wildchat.row_model row)))
         (Wildchat.row_turns idx row g).1 ∧
  (Wildchat.row_messages row = None ∨ Wildchat.row_messages row = Some [] →
   Wildchat.row_turns idx row g = ([], g)).
Proof.
  unfold Wildchat.row_turns. split.
  - destruct (Wildchat.row_messages row) as [[|m ms]|]; simpl; [done| |done].
    by apply foldl_step_of_record.
  - by intros [-> | ->].
Qed.

Lemma wildchat_record_defaults_witness :
  Wildchat.row_turns 7 (Wildchat.mkRow None None None Wildchat.Missing (Some [])) quiet
  = ([], quiet).
Proof.
  apply (wildchat_record_defaults 7
           (Wildchat.mkRow None None None Wildchat.Missing (Some [])) quiet).
  right. reflexivity.
Defined.

(** ** The sampler: grouping the rows read *)

(** X14. Reading a table whose rows all have a session_id yields a
    dictionary with one entry per session: keys are distinct, no entry is
    empty, the entry of a session is the rows of that session in file order,
    and every key falls in exactly one of the two pools. *)
Theorem sampler_grouping table :
  Forall has_session table →
  ∃ convs,
    Subset.read_rows table [] = ([], inr convs) ∧
    NoDup convs.*1 ∧
    Forall (λ kv, kv.2 ≠ []) convs ∧
    (∀ s, Subset.rows_of convs s = filter (λ r, session r = s) table) ∧
    NoDup (Subset.single_turn convs ++ Subset.multi_turn convs) ∧
    Subset.single_turn convs ++ Subset.multi_turn convs ≡ₚ convs.*1.
Proof.
  intros Hs. exists (group table []).
  destruct (grouped_table table) as (Hnd & Hne & Hrows).
  split; [by apply read_rows_ok|]. split; [done|]. split; [done|]. split; [done|].
  split; [apply pools_NoDup|].
  unfold Subset.single_turn, Subset.multi_turn. rewrite <- fmap_app.
  by rewrite filter_app_complement.
Qed.

Lemma sampler_grouping_witness :
  ∃ convs,
    Subset.read_rows small_table [] = ([], inr convs) ∧
    NoDup convs.*1 ∧
    Forall (λ kv, kv.2 ≠ []) convs ∧
    (∀ s, Subset.rows_of convs s = filter (λ r, session r = s) small_table) ∧
    NoDup (Subset.single_turn convs ++ Subset.multi_turn convs) ∧
    Subset.single_turn convs ++ Subset.multi_turn convs ≡ₚ convs.*1.
Proof.
  apply (sampler_grouping small_table).
  repeat constructor; by eexists.
Defined.

Lemma renumber_delete rows :
  delete "turn_id" <$> Subset.renumber rows = delete "turn_id" <$> rows.
Proof.
  apply list_eq. intros i. rewrite !list_lookup_fmap, renumber_lookup.
  destruct (rows !! i) as [r|]; simpl; [|done]. by rewrite delete_insert_eq.
Qed.

(** ** The sampler: what is selected and what is written *)

Lemma chosen_stratified rt table :
  filter (λ s, s ∈ pool_single table) (chosen rt table)
    = (Subset.sample_pool (pool_single table)
         (300 `min` length (pool_single table)) (Subset.seed rt 42)).1 ∧
  filter (λ s, s ∈ pool_multi table) (chosen rt table)
    = (Subset.sample_pool (pool_multi table)
         (200 `min` length (pool_multi table))
         (Subset.sample_pool (pool_single table)
            (300 `min` length (pool_single table)) (Subset.seed rt 42)).2).1.
Proof.
  unfold chosen. cbv zeta.
  set (s1 := Subset.sample_pool (pool_single table) _ _).
  set (s2 := Subset.sample_pool (pool_multi table) _ _).
  assert (Forall (λ s, s ∈ pool_single table) s1.1) as H1.
  { rewrite Forall_forall. intros s Hs.
    eapply elem_of_submseteq; [exact Hs|apply sample_pool_submseteq]. }
  assert (Forall (λ s, s ∈ pool_multi table) s2.1) as H2.
  { rewrite Forall_forall. intros s Hs.
    eapply elem_of_submseteq; [exact Hs|apply sample_pool_submseteq]. }
  pose proof (pools_NoDup table) as Hnd. apply NoDup_app in Hnd as (_ & Hdisj & _).
  rewrite !filter_app. split.
  - rewrite (filter_all _ _ H1), filter_none; [by rewrite app_nil_r|].
    eapply Forall_impl; [exact H2|]. intros s Hm Hs. by apply (Hdisj s).
  - rewrite (filter_all _ _ H2), filter_none; [done|].
    eapply Forall_impl; [exact H1|]. intros s Hs Hm. by apply (Hdisj s).
Qed.

(** X17. The sessions of the file written are min(300, single pool) sessions
    of the single-turn pool and min(200, multi pool) sessions of the
    multi-turn pool: each class meets its own clamped target. *)
Theorem sampler_stratified rt table :
  Subset.set_iteration (Subset.set_iter rt) → well_formed rt table →
  ∃ (sel : list string) (out : list (gmap string string)),
    written (Subset.main rt table) = Some out ∧
    NoDup sel ∧ (∀ s, s ∈ sel ↔ ∃ r, r ∈ out ∧ session r = s) ∧
    length (filter (λ s, length (filter (λ r, session r = s) table) = 1%nat) sel)
      = (300 `min` length (pool_single table))%nat ∧
    length (filter (λ s, (2 ≤ length (filter (λ r, session r = s) table))%nat) sel)
      = (200 `min` length (pool_multi table))%nat.
Proof.
  intros Hset Hwf. exists (selection rt table), (Subset.renumber (kept rt table)).
  rewrite main_ok by eauto using well_formed_sessions, collected_has_key.
  split; [apply written_after_warnings|].
  split; [by destruct (Hset (chosen rt table))|].
  split; [intros s; by apply kept_sessions|].
  destruct (chosen_stratified rt table) as [H1 H2].
  rewrite (list_filter_iff _ (λ s, s ∈ pool_single table))
    by (intros s; symmetry; apply pool_single_spec).
  rewrite (list_filter_iff (λ s, (2 ≤ _)%nat) (λ s, s ∈ pool_multi table))
    by (intros s; symmetry; apply pool_multi_spec).
  rewrite !(selection_perm rt table Hset), H1, H2.
  rewrite !sample_pool_length by lia. done.
Qed.

Lemma sampler_stratified_witness :
  ∃ (sel : list string) (out : list (gmap string string)),
    written (Subset.main rt_first small_table) = Some out ∧
    length (filter (λ s, length (filter (λ r, session r = s) small_table) = 1%nat) sel)
      = 2%nat ∧
    length (filter (λ s, (2 ≤ length (filter (λ r, session r = s) small_table))%nat) sel)
      = 1%nat.
Proof.
  destruct (sampler_stratified rt_first small_table first_seen_iteration
              small_table_well_formed) as (sel & out & Hw & _ & _ & H1 & H2).
  exists sel, out. split; [exact Hw|]. split.
  - rewrite H1. vm_compute. reflexivity.
  - rewrite H2. vm_compute. reflexivity.
Defined.

Lemma universal_newlines_id s :
  free_of Text.CR s → Text.universal_newlines s = s.
Proof.
  induction s as [|c s IH]; simpl; [done|]. intros [Hc Hs].
  rewrite decide_False by done. by rewrite IH.
Qed.

(** A stored table without carriage returns is read as it is stored. *)
Lemma read_text_id stored :
  no_carriage_return stored → Subset.read_text stored = stored.
Proof.
  unfold Subset.read_text. induction 1 as [|row stored Hrow _ IH]; [done|].
  rewrite fmap_cons, IH. f_equal.
  apply map_eq. intros k. rewrite lookup_fmap.
  destruct (row !! k) as [v|] eqn:E; simpl; [|done].
  f_equal. apply universal_newlines_id. exact (Hrow k v E).
Qed.

Lemma rows_from_table rt table :
  Subset.set_iteration (Subset.set_iter rt) → well_formed rt table →
  ∃ out,
    written (Subset.main rt table) = Some out ∧
    delete "turn_id" <$> out ⊆+ delete "turn_id" <$> table ∧
    (length out ≤ length table)%nat ∧
    ((length (pool_single table) ≤ 300)%nat → (length (pool_multi table) ≤ 200)%nat →
     delete "turn_id" <$> out ≡ₚ delete "turn_id" <$> table).
Proof.
  intros Hset Hwf. exists (Subset.renumber (kept rt table)).
  rewrite main_ok by eauto using well_formed_sessions, collected_has_key.
  split; [apply written_after_warnings|].
  assert (kept rt table ⊆+ table) as Hsub.
  { rewrite kept_perm, collected_perm by done. apply sublist_submseteq, sublist_filter. }
  split; [|split].
  - rewrite renumber_delete. by apply fmap_submseteq.
  - rewrite renumber_length. by apply submseteq_length.
  - intros H1 H2. rewrite renumber_delete. apply fmap_Permutation.
    rewrite kept_perm, collected_perm by done.
    rewrite filter_all; [done|]. rewrite Forall_forall. intros r Hr.
    assert (session r ∈ pool_single table ++ pool_multi table) as Hin.
    { apply pools_cover. by exists r. }
    apply elem_of_app in Hin as [Hin|Hin].
    + by apply pool_single_selected.
    + by apply pool_multi_selected.
Qed.

(** X18. The file written is a part of the table as the script reads it:
    its rows, turn_id aside, are rows of that table, none taken twice; when
    neither pool exceeds its target it is the whole of it, turn_id aside.
    The table as read is the stored table with every CR LF and CR of a
    field turned into LF, and the stored table itself when no field holds a
    carriage return. *)
Theorem sampler_rows_from_table rt stored :
  Subset.set_iteration (Subset.set_iter rt) →
  well_formed rt (Subset.read_text stored) →
  ∃ out,
    written (Subset.run rt stored) = Some out ∧
    delete "turn_id" <$> out ⊆+ delete "turn_id" <$> Subset.read_text stored ∧
    (length out ≤ length stored)%nat ∧
    ((length (pool_single (Subset.read_text stored)) ≤ 300)%nat →
     (length (pool_multi (Subset.read_text stored)) ≤ 200)%nat →
     delete "turn_id" <$> out ≡ₚ delete "turn_id" <$> Subset.read_text stored) ∧
    (no_carriage_return stored → Subset.read_text stored = stored).
Proof.
  intros Hset Hwf.
  destruct (rows_from_table rt _ Hset Hwf) as (out & Hw & Hsub & Hlen & Hall).
  exists out. split; [exact Hw|]. split; [exact Hsub|]. split.
  - unfold Subset.read_text in Hlen. by rewrite length_fmap in Hlen.
  - split; [exact Hall|apply read_text_id].
Qed.

Lemma small_table_no_carriage_return : no_carriage_return small_table.
Proof.
  assert (∀ tid sid text,
            free_of Text.CR tid → free_of Text.CR sid → free_of Text.CR text →
            map_Forall (λ _ v, free_of Text.CR v) (row_of tid sid text)) as Hrow.
  { intros tid sid text H1 H2 H3. unfold row_of.
    repeat (apply map_Forall_insert_2; [assumption|]). apply map_Forall_empty. }
  unfold no_carriage_return, small_table.
  repeat (apply Forall_cons; split; [apply Hrow; cbv; repeat split; discriminate|]).
  constructor.
Qed.

Lemma small_table_read : Subset.read_text small_table = small_table.
Proof. apply read_text_id, small_table_no_carriage_return. Qed.

Lemma sampler_rows_from_table_witness :
  ∃ out,
    written (Subset.run rt_first small_table) = Some out ∧
    delete "turn_id" <$> out ≡ₚ delete "turn_id" <$> small_table.
Proof.
  destruct (sampler_rows_from_table rt_first small_table first_seen_iteration)
    as (out & Hw & _ & _ & Hall & Hid).
  - rewrite small_table_read. exact small_table_well_formed.
  - exists out. split; [exact Hw|].
    rewrite <- (Hid small_table_no_carriage_return).
    apply Hall; rewrite small_table_read; vm_compute; lia.
Defined.

Lemma frame_of_table rt table :
  Subset.set_iteration (Subset.set_iter rt) → well_formed rt table →
  ∃ (sel : list string) (srt out : list (gmap string string)),
    written (Subset.main rt table) = Some out ∧
    NoDup sel ∧
    (∀ s, s ∈ sel → ∃ r, r ∈ table ∧ session r = s) ∧
    length sel = (300 `min` length (pool_single table)
                  + 200 `min` length (pool_multi table))%nat ∧
    srt ≡ₚ filter (λ r, session r ∈ sel) table ∧
    StronglySorted (λ a b, key rt a ≤ key rt b) srt ∧
    length out = length srt ∧
    (∀ i r, srt !! i = Some r → out !! i = Some (<["turn_id" := pretty (S i)]> r)) ∧
    (∀ i r r' f, srt !! i = Some r → out !! i = Some r' →
                 r' !! "turn_id" = Some (pretty (S i)) ∧ (f ≠ "turn_id" → r' !! f = r !! f)) ∧
    (∀ i j r1 r2, srt !! i = Some r1 → srt !! j = Some r2 →
                  key rt r1 < key rt r2 → (i < j)%nat).
Proof.
  intros Hset Hwf.
  exists (selection rt table), (kept rt table), (Subset.renumber (kept rt table)).
  assert (∀ i r, kept rt table !! i = Some r →
            Subset.renumber (kept rt table) !! i
            = Some (<["turn_id" := pretty (S i)]> r)) as Hlook.
  { intros i r Hi. by rewrite renumber_lookup, Hi. }
  split; [|split; [|split; [|split; [|split; [|split; [|split; [|split; [|split]]]]]]]].
  - rewrite main_ok by eauto using well_formed_sessions, collected_has_key.
    apply written_after_warnings.
  - by destruct (Hset (chosen rt table)).
  - intros s Hs. apply pools_cover. by apply (selection_in_pools rt).
  - by rewrite (selection_perm rt table Hset), chosen_length.
  - by rewrite kept_perm, collected_perm.
  - apply kept_sorted.
  - apply renumber_length.
  - exact Hlook.
  - intros i r r' f Hi Hout. rewrite (Hlook i r Hi) in Hout. injection Hout as <-.
    split; [by rewrite lookup_insert_eq|]. intros Hf. by rewrite lookup_insert_ne.
  - intros i j r1 r2 Hi Hj Hlt. destruct (decide (i < j)%nat) as [|Hge]; [done|].
    exfalso. destruct (decide (i = j)) as [->|Hne].
    + rewrite Hi in Hj. injection Hj as ->. lia.
    + pose proof (kept_sorted rt table) as Hs.
      assert (j < i)%nat as Hji by lia.
      pose proof (StronglySorted_lookup_lt _ _ _ _ _ _ Hs Hj Hi Hji) as Hle.
      simpl in Hle. lia.
Qed.

(** X20. What the sampler writes, against the table as it reads it (the
    stored table with every CR LF and CR of a field turned into LF, the
    stored table itself when no field holds a carriage return): the rows of
    min(300, single pool) + min(200, multi pool) distinct sessions of the
    table, in ascending order of their original numeric turn_id, each with
    turn_id replaced by its 1-based position and every other field as read;
    a row with a smaller original id comes first. *)
Theorem sampler_frame rt stored :
  Subset.set_iteration (Subset.set_iter rt) →
  well_formed rt (Subset.read_text stored) →
  ∃ (sel : list string) (srt out : list (gmap string string)),
    written (Subset.run rt stored) = Some out ∧
    NoDup sel ∧
    (∀ s, s ∈ sel → ∃ r, r ∈ Subset.read_text stored ∧ session r = s) ∧
    length sel = (300 `min` length (pool_single (Subset.read_text stored))
                  + 200 `min` length (pool_multi (Subset.read_text stored)))%nat ∧
    srt ≡ₚ filter (λ r, session r ∈ sel) (Subset.read_text stored) ∧
    StronglySorted (λ a b, key rt a ≤ key rt b) srt ∧
    length out = length srt ∧
    (∀ i r, srt !! i = Some r → out !! i = Some (<["turn_id" := pretty (S i)]> r)) ∧
    (∀ i r r' f, srt !! i = Some r → out !! i = Some r' →
                 r' !! "turn_id" = Some (pretty (S i)) ∧ (f ≠ "turn_id" → r' !! f = r !! f)) ∧
    (∀ i j r1 r2, srt !! i = Some r1 → srt !! j = Some r2 →
                  key rt r1 < key rt r2 → (i < j)%nat) ∧
    (no_carriage_return stored → Subset.read_text stored = stored).
Proof.
  intros Hset Hwf.
  destruct (frame_of_table rt _ Hset Hwf)
    as (sel & srt & out & H1 & H2 & H3 & H4 & H5 & H6 & H7 & H8 & H9 & H10).
  exists sel, srt, out.
  split; [exact H1|]. split; [exact H2|]. split; [exact H3|]. split; [exact H4|].
  split; [exact H5|]. split; [exact H6|]. split; [exact H7|]. split; [exact H8|].
  split; [exact H9|]. split; [exact H10|apply read_text_id].
Qed.

Lemma sampler_frame_witness :
  ∃ (sel : list string) (srt out : list (gmap string string)),
    written (Subset.run rt_first small_table) = Some out ∧
    length sel = 3%nat ∧
    srt ≡ₚ filter (λ r, session r ∈ sel) small_table ∧
    (∀ i r, srt !! i = Some r → out !! i = Some (<["turn_id" := pretty (S i)]> r)).
Proof.
  destruct (sampler_frame rt_first small_table first_seen_iteration)
    as (sel & srt & out & H1 & _ & _ & H4 & H5 & _ & _ & H8 & _ & _ & Hid).
  - rewrite small_table_read. exact small_table_well_formed.
  - exists sel, srt, out. split; [exact H1|].
    rewrite (Hid small_table_no_carriage_return) in H4, H5.
    split; [rewrite H4; vm_compute; reflexivity|]. split; [exact H5|exact H8].
Defined.

(** X19. Two runs on the same table with the same integer parser and seed
    write a file in both or in neither, and the two files hold the same rows
    up to order and turn_id, whatever the order in which each run enumerates
    its set of selected sessions, also when turn_ids tie. *)
Theorem sampler_same_rows_any_order rt1 rt2 table :
  Subset.int rt1 = Subset.int rt2 → Subset.seed rt1 = Subset.seed rt2 →
  Subset.set_iteration (Subset.set_iter rt1) →
  Subset.set_iteration (Subset.set_iter rt2) →
  (is_Some (written (Subset.main rt1 table)) ↔ is_Some (written (Subset.main rt2 table))) ∧
  delete "turn_id" <$> rows_written (Subset.main rt1 table)
  ≡ₚ delete "turn_id" <$> rows_written (Subset.main rt2 table).
Proof.
  intros Hint Hseed H1 H2.
  assert (∀ r, Decision (has_session r)) by (intros r; unfold has_session; apply _).
  assert (∀ r, Decision (has_key rt1 r)) by (intros r; unfold has_key; apply _).
  destruct (decide (Forall has_session table)) as [Hs|Hs].
  - pose proof (collected_same rt1 rt2 table Hseed H1 H2) as Hc.
    assert (Forall (has_key rt1) (collected rt1 table)
            ↔ Forall (has_key rt2) (collected rt2 table)) as Hiff.
    { rewrite Hc. apply Forall_proper; [|done]. intros r.
      by apply has_key_same_int. }
    destruct (decide (Forall (has_key rt1) (collected rt1 table))) as [Hk|Hk].
    + rewrite (main_ok rt1 table Hs Hk), (main_ok rt2 table Hs (proj1 Hiff Hk)).
      unfold rows_written. rewrite !written_after_warnings. simpl.
      split; [split; eauto|]. rewrite !renumber_delete.
      apply fmap_Permutation. by rewrite !kept_perm.
    + destruct (main_key_fail rt1 table Hs Hk) as [e1 ->].
      assert (¬ Forall (has_key rt2) (collected rt2 table)) as Hk2 by tauto.
      destruct (main_key_fail rt2 table Hs Hk2) as [e2 ->].
      unfold rows_written. by rewrite !written_only_warnings.
  - destruct (main_read_fail rt1 table Hs) as [e1 ->].
    by destruct (main_read_fail rt2 table Hs) as [e2 ->].
Qed.

Lemma sampler_same_rows_any_order_witness :
  (is_Some (written (Subset.main rt_first tied_ids))
   ↔ is_Some (written (Subset.main rt_last tied_ids))) ∧
  delete "turn_id" <$> rows_written (Subset.main rt_first tied_ids)
  ≡ₚ delete "turn_id" <$> rows_written (Subset.main rt_last tied_ids).
Proof.
  apply (sampler_same_rows_any_order rt_first rt_last tied_ids).
  - reflexivity.
  - reflexivity.
  - exact first_seen_iteration.
  - exact last_first_iteration.
Defined.
